(** * wikidump: DOI extraction and bibliography-section statistics

    A shallow embedding of [wikidump/extractors/doi.py] and
    [wikidump/processors/bibliography_extractor.py].

    Python strings are sequences of Unicode code points; a text is a
    [list N].  The third-party [regex] engine is modelled by a small
    backtracking matcher over the constructs the patterns of the source
    use. *)

From Stdlib Require Import ZArith NArith Lia List String Ascii Bool.
From stdpp Require Import gmap strings list fin_maps.

(** ** Unicode tables

    With [re.U] the classes [\s] and [\w] and the case folding of [re.I]
    are decided by the Unicode tables of the regex library.  Their ASCII
    part is fixed below; the rest is a parameter of the development. *)

Class UnicodeTables := {
  uni_space : N -> bool;   (* [\s] outside the printable ASCII range *)
  uni_word : N -> bool;    (* [\w] outside ASCII *)
  uni_fold : N -> N        (* simple case folding outside ASCII *)
}.

(** The tables of a text that is pure ASCII: nothing else is a space or a
    word character, nothing else folds. *)
Definition ascii_tables : UnicodeTables :=
  {| uni_space := fun _ => false; uni_word := fun _ => false; uni_fold := fun c => c |}.

(** A Python string literal. *)
Definition text_of (s : string) : list N :=
  map N_of_ascii (list_ascii_of_string s).

(** ** The regular-expression engine *)

Module Regex.

(** The constructs used by the patterns of the source: a character class
    (a literal is a one-element class), sequence, ordered alternation, the
    greedy star of a class, and the anchor [$]. *)
Inductive regex :=
| Eps
| Eol
| Cls (p : N -> bool)
| Seq (a b : regex)
| Alt (a b : regex)
| Star (p : N -> bool).

Definition lit (a : ascii) : regex := Cls (N.eqb (N_of_ascii a)).

Fixpoint lits (s : string) : regex :=
  match s with
  | EmptyString => Eps
  | String a s' => Seq (lit a) (lits s')
  end.

(** [r?], greedy. *)
Definition Opt (r : regex) : regex := Alt r Eps.

(** [[...]+], greedy. *)
Definition Plus (p : N -> bool) : regex := Seq (Cls p) (Star p).

(** [r{n}] *)
Fixpoint Rep (n : nat) (r : regex) : regex :=
  match n with
  | O => Eps
  | S n' => Seq r (Rep n' r)
  end.

(** [r1|r2|...] *)
Fixpoint Alts (rs : list regex) : regex :=
  match rs with
  | [] => Cls (fun _ => false)
  | [r] => r
  | r :: rs' => Alt r (Alts rs')
  end.

(** The greedy loop of [Star p]: take as many characters of the class as
    there are, and give them back one at a time while the rest of the
    pattern (the continuation [k]) fails. *)
Fixpoint star_loop (p : N -> bool) (s : list N) (n : nat)
    (k : list N -> nat -> option nat) : option nat :=
  match s with
  | c :: s' =>
      if p c then
        match star_loop p s' (S n) k with
        | Some r => Some r
        | None => k s n
        end
      else k s n
  | [] => k s n
  end.

(** Backtracking matcher: [s] is the text from the current position, [n]
    the number of characters matched so far, [k] the rest of the pattern.
    The result is the length of the match. *)
Fixpoint exec (r : regex) (s : list N) (n : nat)
    (k : list N -> nat -> option nat) : option nat :=
  match r with
  | Eps => k s n
  | Eol =>
      (* without re.M: at the end, or before a newline that ends the text *)
      match s with
      | [] => k s n
      | [c] => if N.eqb c 10 then k s n else None
      | _ => None
      end
  | Cls p =>
      match s with
      | c :: s' => if p c then k s' (S n) else None
      | [] => None
      end
  | Seq a b => exec a s n (fun s' n' => exec b s' n' k)
  | Alt a b =>
      match exec a s n k with
      | Some m => Some m
      | None => exec b s n k
      end
  | Star p => star_loop p s n k
  end.

(** The end of a pattern.  [adv] asks for a match that is not empty: the
    scanner sets it after an empty match, as [finditer] does. *)
Definition accept (adv : bool) (_ : list N) (n : nat) : option nat :=
  if adv && Nat.eqb n 0 then None else Some n.

(** A compiled pattern is an ordered alternation of groups
    [(?P<name>...)|(?P<name>...)|...]; [A] is the type of the group names
    ([unit] for a pattern without named groups). *)
Definition compiled (A : Type) := list (regex * A).

(** A match object: [lastgroup], [start()] and [end()]. *)
Record Match (A : Type) := mkMatch {
  lastgroup : A;
  m_start : nat;
  m_end : nat
}.
Arguments mkMatch {A}.
Arguments lastgroup {A}.
Arguments m_start {A}.
Arguments m_end {A}.

(** [match.group(0)] *)
Definition group0 {A} (text : list N) (m : Match A) : list N :=
  take (m_end m - m_start m) (drop (m_start m) text).

(** The first alternative that matches at the head of [s] wins. *)
Fixpoint match_here {A} (re : compiled A) (s : list N) (adv : bool)
    : option (A * nat) :=
  match re with
  | [] => None
  | (r, name) :: re' =>
      match exec r s 0 (accept adv) with
      | Some n => Some (name, n)
      | None => match_here re' s adv
      end
  end.

(** Leftmost match in [s], which is the text from offset [pos] on. *)
Fixpoint search_from {A} (re : compiled A) (s : list N) (pos : nat) (adv : bool)
    : option (Match A) :=
  match match_here re s adv with
  | Some (name, n) => Some (mkMatch name pos (pos + n))
  | None =>
      match s with
      | [] => None
      | _ :: s' => search_from re s' (S pos) false
      end
  end.

(** [re.search(text, pos)] *)
Definition search {A} (re : compiled A) (text : list N) (pos : nat) (adv : bool)
    : option (Match A) :=
  search_from re (drop pos text) pos adv.

(** [re.finditer(text)]: a match, then a search from where it ended; after
    an empty match the next one at the same place must not be empty.  Two
    rounds per character and two more at the end are all there can be. *)
Fixpoint finditer_from {A} (fuel : nat) (re : compiled A) (text : list N)
    (pos : nat) (adv : bool) : list (Match A) :=
  match fuel with
  | O => []
  | S fuel' =>
      match search re text pos adv with
      | None => []
      | Some m =>
          m :: finditer_from fuel' re text (m_end m) (Nat.eqb (m_end m) (m_start m))
      end
  end.

Definition finditer {A} (re : compiled A) (text : list N) : list (Match A) :=
  finditer_from (2 * length text + 2) re text 0 false.

(** [re.sub('', s)]: every match of [r] is deleted.  [s] is the text from
    the current position on. *)
Fixpoint sub_empty_from (fuel : nat) (r : regex) (s : list N) (adv : bool)
    : list N :=
  match fuel with
  | O => s
  | S fuel' =>
      match exec r s 0 (accept adv) with
      | Some (S n) => sub_empty_from fuel' r (drop (S n) s) false
      | Some O => sub_empty_from fuel' r s true
      | None =>
          match s with
          | [] => []
          | c :: s' => c :: sub_empty_from fuel' r s' false
          end
      end
  end.

Definition sub_empty (r : regex) (s : list N) : list N :=
  sub_empty_from (2 * length s + 2) r s false.

(** *** What a pattern can match

    [lang r w rest]: the pattern [r] can match the characters [w] when
    [rest] is the text that follows them (the anchor looks at it). *)
Fixpoint lang (r : regex) (w rest : list N) : Prop :=
  match r with
  | Eps => w = []
  | Eol => w = [] ∧ (rest = [] ∨ rest = [10%N])
  | Cls p => ∃ c, w = [c] ∧ p c = true
  | Seq a b => ∃ w1 w2, w = w1 ++ w2 ∧ lang a w1 (w2 ++ rest) ∧ lang b w2 rest
  | Alt a b => lang a w rest ∨ lang b w rest
  | Star p => Forall (fun c => p c = true) w
  end.

(** The length of the shortest match. *)
Fixpoint min_len (r : regex) : nat :=
  match r with
  | Eps | Eol | Star _ => 0
  | Cls _ => 1
  | Seq a b => min_len a + min_len b
  | Alt a b => Nat.min (min_len a) (min_len b)
  end.

(** No match of [r] holds the character [c]. *)
Fixpoint excludes (c : N) (r : regex) : bool :=
  match r with
  | Eps | Eol => true
  | Cls p | Star p => negb (p c)
  | Seq a b | Alt a b => excludes c a && excludes c b
  end.

(** The matches [ms] tile the text from offset [a] to offset [b]: each one
    starts where the one before it ended, and none is empty. *)
Fixpoint contiguous {A} (a : nat) (ms : list (Match A)) (b : nat) : Prop :=
  match ms with
  | [] => a = b
  | m :: ms' => m_start m = a ∧ m_start m < m_end m ∧ contiguous (m_end m) ms' b
  end.

(** The longest prefix of characters of a class, and what follows it. *)
Fixpoint take_while (p : N -> bool) (s : list N) : list N :=
  match s with
  | c :: s' => if p c then c :: take_while p s' else []
  | [] => []
  end.

Fixpoint drop_while (p : N -> bool) (s : list N) : list N :=
  match s with
  | c :: s' => if p c then drop_while p s' else s
  | [] => []
  end.

(** Where [$] matches: at the end of the text, or before a line feed that
    ends it. *)
Definition at_eol (s : list N) : bool :=
  match s with
  | [] => true
  | [c] => N.eqb c 10
  | _ => false
  end.

End Regex.

(** ** Python exceptions that the modelled code can raise *)

Inductive exn := AssertionError | StopIteration | KeyError.

(** ** [wikidump/extractors/common.py] *)

Module Common.

(** Modelled from the spec: the declarations of [Identifier], [Span] and
    [CaptureResult] ([wikidump/extractors/common.py]) are not among the
    sources; the fields are those of the data model of the specification
    (section 3), in the order in which [doi.py] passes them. *)
Record Identifier := mkIdentifier { kind : string; id : list N }.
Record Span := mkSpan { span_start : nat; span_end : nat }.
Record CaptureResult := mkCaptureResult { value : Identifier; span : Span }.

End Common.

(** ** [wikidump/extractors/doi.py] *)

Module Doi.
Import Regex.

(** The group names of [LEXICON]. *)
Inductive token_name :=
| doi_start | open_paren | close_paren | open_bracket | close_bracket
| comment_start | comment_end | tag | open_angle | close_angle
| open_curly | close_curly | pipe | punct | url_end | break
| whitespace | word | etc.

#[global] Instance token_name_eq_dec : EqDecision token_name.
Proof. solve_decision. Defined.

(** A token: [(match.lastgroup, match.group(0))].  The groups inside the
    pattern of [tag] have no name, so the last group that closes in a match
    of it is [tag] itself. *)
Definition token : Type := token_name * list N.

Section Lexicon.
Context `{UnicodeTables}.

(** *** Character classes *)

Definition is_digit (c : N) : bool := (48 <=? c)%N && (c <=? 57)%N.

(** [\s] under [re.U]. *)
Definition is_space (c : N) : bool :=
  ((9 <=? c)%N && (c <=? 13)%N) || (c =? 32)%N
  || (((c <? 33)%N || (126 <? c)%N) && uni_space c).

(** [\w] under [re.U]. *)
Definition is_word (c : N) : bool :=
  if (c <? 128)%N then
    ((48 <=? c)%N && (c <=? 57)%N) || ((65 <=? c)%N && (c <=? 90)%N)
    || ((97 <=? c)%N && (c <=? 122)%N) || (c =? 95)%N
  else uni_word c.

(** Case folding, for the letters of a pattern compiled with [re.I]. *)
Definition casefold (c : N) : N :=
  if (c <? 128)%N then
    if (65 <=? c)%N && (c <=? 90)%N then (c + 32)%N else c
  else uni_fold c.

(** A lower-case letter of a pattern, under [re.I]. *)
Definition liti (a : ascii) : regex :=
  Cls (fun c => (casefold c =? N_of_ascii a)%N).

Fixpoint litsi (s : string) : regex :=
  match s with
  | EmptyString => Eps
  | String a s' => Seq (liti a) (litsi s')
  end.

Definition is_newline (c : N) : bool := (c =? 10)%N || (c =? 13)%N.

(** [.] without [re.S]: anything but a line feed. *)
Definition is_dot (c : N) : bool := negb (c =? 10)%N.

(** [[,\.;!]] *)
Definition is_punct (c : N) : bool :=
  (c =? 44)%N || (c =? 46)%N || (c =? 59)%N || (c =? 33)%N.

(** [[\?#]] *)
Definition is_url_end (c : N) : bool := (c =? 63)%N || (c =? 35)%N.

(** [[^>\n\r]] *)
Definition is_tag_attr (c : N) : bool :=
  negb ((c =? 62)%N || (c =? 10)%N || (c =? 13)%N).

(** [[\.,!]] *)
Definition is_end_punct (c : N) : bool :=
  (c =? 46)%N || (c =? 44)%N || (c =? 33)%N.

(** *** The patterns

    Under [re.I] only letters match more than themselves: the digits and
    the punctuation of the patterns have no other case, so they are
    compared as they are; the letters of the tag names are compared after
    case folding. *)

(** [10\.[0-9]{4,}/] *)
Definition DOI_START_pattern : regex :=
  Seq (lits "10.") (Seq (Rep 4 (Cls is_digit)) (Seq (Star is_digit) (lit "/"))).

Definition DOI_START_RE : compiled unit := [(DOI_START_pattern, tt)].

Definition HTML_TAGS : list string :=
  ["ref"; "span"; "div"; "table"; "h1"; "h2"; "h3"; "h4"; "h5"; "h6";
   "b"; "u"; "i"; "s"; "ins"; "del"; "code"; "tt"; "blockquote";
   "pre"]%string.

(** [TAGS_RE]: a [<], an optional [/] with spaces after it, one of the
    tag names, an optional attribute part (a space, then characters other
    than [>] and line ends), and a [>]; compiled with [re.I]. *)
Definition TAGS_pattern : regex :=
  Seq (lit "<")
   (Seq (Opt (Seq (lit "/") (Star is_space)))
    (Seq (Alts (map litsi HTML_TAGS))
     (Seq (Opt (Seq (Cls is_space) (Plus is_tag_attr)))
      (lit ">")))).

Definition LEXICON : list (regex * token_name) :=
  [ (DOI_START_pattern, doi_start);
    (lit "(", open_paren);
    (lit ")", close_paren);
    (lit "[", open_bracket);
    (lit "]", close_bracket);
    (lits "<!--", comment_start);
    (lits "-->", comment_end);
    (TAGS_pattern, tag);
    (lit "<", open_angle);
    (lit ">", close_angle);
    (lit "{", open_curly);
    (lit "}", close_curly);
    (lit "|", pipe);
    (Cls is_punct, punct);
    (Cls is_url_end, url_end);
    (Plus is_newline, break);
    (Plus is_space, whitespace);
    (Plus is_word, word);
    (Cls is_dot, etc) ].

(** The lexicon joined into one alternation of named groups and compiled:
    the groups are tried in the order of the lexicon. *)
Definition compile_lexicon (lexicon : list (regex * token_name))
    : compiled token_name := lexicon.

Definition _lexicon_re : compiled token_name := compile_lexicon LEXICON.

(** *** The tokenizers *)

Definition token_of (text : list N) (m : Match token_name) : token :=
  (lastgroup m, group0 text m).

Definition tokenize_finditer_with (text : list N)
    (lexicon : list (regex * token_name)) : list token :=
  let group_regex := compile_lexicon lexicon in
  map (token_of text) (finditer group_regex text).

(** [tokenize_finditer(text)], with the default lexicon.  The flag [re.M]
    that this function adds changes [^] and [$] only, which no pattern of
    the lexicon has. *)
Definition tokenize_finditer (text : list N) : list token :=
  tokenize_finditer_with text LEXICON.

(** The loop of [tokenize_search]: one token per round, and the next search
    starts where the match ended. *)
Fixpoint tokenize_search_loop (fuel : nat) (text : list N)
    (match_ : option (Match token_name)) : list token :=
  match fuel, match_ with
  | S fuel', Some m =>
      token_of text m
        :: tokenize_search_loop fuel' text (search _lexicon_re text (m_end m) false)
  | _, _ => []
  end.

(** [tokenize_search(text, start)].  Every match takes at least one
    character (lemma [lexicon_match]), so one round per character of the
    text is enough. *)
Definition tokenize_search (text : list N) (start : nat) : list token :=
  tokenize_search_loop (length text) text (search _lexicon_re text start false).

(** The token sequence of a text, as a relation: at every character the
    first group of the lexicon that matches gives the next token, and
    lexing goes on behind it. *)
Inductive Lexes : list N -> list token -> Prop :=
| Lexes_nil : Lexes [] []
| Lexes_cons c s name n toks :
    match_here _lexicon_re (c :: s) false = Some (name, n) ->
    Lexes (drop n (c :: s)) toks ->
    Lexes (c :: s) ((name, take n (c :: s)) :: toks).

(** A token of the lexer is a match of the pattern of its name. *)
Definition lexed (tok : token) : Prop :=
  ∃ r rest, (r, tok.1) ∈ LEXICON ∧ lang r tok.2 rest.

(** A match of [DOI_START_RE] in [text]. *)
Definition doi_match (text : list N) (m : Match unit) : Prop :=
  ∃ n, exec DOI_START_pattern (drop (m_start m) text) 0 (accept false) = Some n
       ∧ m_end m = m_start m + n.

(** *** [read_doi] *)

(** [_punctuation_at_end_re]: a run of [.], [,] and [!], then [$]. *)
Definition _punctuation_at_end_re : regex := Seq (Plus is_end_punct) Eol.

(** The token names at which [read_doi] stops. *)
Definition is_terminator (name : token_name) : bool :=
  match name with
  | url_end | break | whitespace | tag | pipe | comment_start | comment_end => true
  | _ => false
  end.

(** [depth = defaultdict(lambda: 0)]: reading a key that is missing gives 0
    and stores it. *)
Definition depth_get (depth : gmap string Z) (key : string) : Z :=
  default 0%Z (depth !! key).

Definition depth_touch (depth : gmap string Z) (key : string) : gmap string Z :=
  <[key := depth_get depth key]> depth.

Definition depth_add (depth : gmap string Z) (key : string) (d : Z) : gmap string Z :=
  <[key := (depth_get depth key + d)%Z]> depth.

(** The [while] loop of [read_doi].  [tokens] is what the peekable stream
    still holds; the result is the state when the loop is left: the depth
    counters, the buffer and the tokens that were not consumed. *)
Fixpoint read_doi_loop (depth : gmap string Z) (doi_buffer : list (list N))
    (tokens : list token) : gmap string Z * list (list N) * list token :=
  match tokens with
  | [] => (depth, doi_buffer, [])
  | (name, match_) :: tokens' =>
      if is_terminator name then (depth, doi_buffer, tokens)
      else
        match name with
        | open_bracket =>
            read_doi_loop (depth_add depth "bracket" 1) (doi_buffer ++ [match_]) tokens'
        | open_curly =>
            read_doi_loop (depth_add depth "curly" 1) (doi_buffer ++ [match_]) tokens'
        | close_bracket =>
            if (0 <? depth_get depth "bracket")%Z then
              read_doi_loop (depth_add depth "bracket" (-1)) (doi_buffer ++ [match_]) tokens'
            else (depth_touch depth "bracket", doi_buffer, tokens)
        | close_curly =>
            if (0 <? depth_get depth "curly")%Z then
              read_doi_loop (depth_add depth "curly" (-1)) (doi_buffer ++ [match_]) tokens'
            else (depth_touch depth "curly", doi_buffer, tokens)
        | _ => read_doi_loop depth (doi_buffer ++ [match_]) tokens'
        end
  end.

(** [read_doi(tokens)]: the identifier, and the stream as it is left.
    [tokens.peek()] raises [StopIteration] on a stream that is exhausted. *)
Definition read_doi (tokens : list token)
    : exn + (Common.Identifier * list token) :=
  match tokens with
  | [] => inl StopIteration
  | (name, match_) :: tokens' =>
      if decide (name = doi_start) then
        let '(_, doi_buffer, rest) := read_doi_loop ∅ [match_] tokens' in
        let id_ := concat doi_buffer in
        inr (Common.mkIdentifier "doi" (sub_empty _punctuation_at_end_re id_), rest)
      else inl AssertionError
  end.

(** The token names at which the loop of [read_doi] stops when it has
    consumed nothing yet: the terminators, and a closing bracket or brace,
    which has no opener at that point. *)
Definition stops_at_once (tokens : list token) : Prop :=
  match tokens with
  | [] => True
  | (name, _) :: _ =>
      is_terminator name = true ∨ name = close_bracket ∨ name = close_curly
  end.

(** What the substitution of [_punctuation_at_end_re] computes, as a
    recursion on the text: a run of the class that reaches [$] is deleted
    (lemma [sub_punctuation_at_end]). *)
Fixpoint strip_punctuation_at_end (s : list N) : list N :=
  match s with
  | [] => []
  | c :: s' =>
      if is_end_punct c && at_eol (drop_while is_end_punct s')
      then drop_while is_end_punct s'
      else c :: strip_punctuation_at_end s'
  end.

(** The words of the specification: [result] is [buffer] without its
    trailing run of characters of the set, a run that is maximal. *)
Definition strips_trailing_run (buffer result : list N) : Prop :=
  ∃ run, buffer = result ++ run
         ∧ Forall (fun c => is_end_punct c = true) run
         ∧ ∀ c, last result = Some c → is_end_punct c = false.

(** The text that [read_doi] has accumulated when its loop is left. *)
Definition accumulated (match_ : list N) (tokens : list token) : list N :=
  concat (read_doi_loop ∅ [match_] tokens).1.2.

(** The tokens that [read_doi] leaves in the stream. *)
Definition left_over (match_ : list N) (tokens : list token) : list token :=
  (read_doi_loop ∅ [match_] tokens).2.

(** *** [extract_search] *)

(** The [for] loop of [extract_search] over the matches of [DOI_START_RE];
    the results that were yielded, and the exception that ended the
    generator, if any. *)
Fixpoint extract_search_loop (text : list N) (matches : list (Match unit))
    (last_end : nat) : list Common.CaptureResult * option exn :=
  match matches with
  | [] => ([], None)
  | match_ :: matches' =>
      let begin_pos := m_start match_ in
      if last_end <? begin_pos then
        let tokens := tokenize_search text begin_pos in
        match read_doi tokens with
        | inl e => ([], Some e)
        | inr (identifier, _) =>
            let end_pos := begin_pos + length (Common.id identifier) in
            let '(out, e) := extract_search_loop text matches' end_pos in
            (Common.mkCaptureResult identifier (Common.mkSpan begin_pos end_pos) :: out, e)
        end
      else extract_search_loop text matches' (Nat.max (m_end match_) last_end)
  end.

Definition extract_search (text : list N)
    : list Common.CaptureResult * option exn :=
  extract_search_loop text (finditer DOI_START_RE text) 0.

(** The spans lie one after the other behind offset [last_end]: each one
    starts behind the end of the one before it, and none is empty. *)
Fixpoint ordered_after (last_end : nat) (spans : list Common.Span) : Prop :=
  match spans with
  | [] => True
  | sp :: spans' =>
      last_end < Common.span_start sp
      ∧ Common.span_start sp < Common.span_end sp
      ∧ ordered_after (Common.span_end sp) spans'
  end.

(** [extract = extract_search] *)
Definition extract := extract_search.

End Lexicon.
End Doi.

(** ** [functools.lru_cache] *)

Module Functools.

Section LruCache.
Context {K V : Type} `{EqDecision K}.

(** The cache holds its entries from the most recently used to the least
    recently used one. *)
Fixpoint cache_get (c : list (K * V)) (key : K) : option V :=
  match c with
  | [] => None
  | (k, v) :: c' => if decide (k = key) then Some v else cache_get c' key
  end.

Fixpoint cache_del (c : list (K * V)) (key : K) : list (K * V) :=
  match c with
  | [] => []
  | (k, v) :: c' => if decide (k = key) then cache_del c' key else (k, v) :: cache_del c' key
  end.

(** A call of the wrapper that [lru_cache(maxsize)] puts around
    [user_function]: a hit moves the entry to the front; a miss calls the
    function, and stores the result in front, the least recently used entry
    leaving a cache that is full.  A call that raises stores nothing. *)
Definition lru_call (maxsize : nat) (user_function : K -> exn + V)
    (c : list (K * V)) (key : K) : (exn + V) * list (K * V) :=
  match cache_get c key with
  | Some result => (inr result, (key, result) :: cache_del c key)
  | None =>
      match user_function key with
      | inl e => (inl e, c)
      | inr result => (inr result, take maxsize ((key, result) :: c))
      end
  end.

(** Every entry is a result of the function. *)
Definition coherent (user_function : K -> exn + V) (c : list (K * V)) : Prop :=
  ∀ key result, (key, result) ∈ c → user_function key = inr result.

(** A sequence of calls, from the first to the last. *)
Fixpoint lru_calls (maxsize : nat) (user_function : K -> exn + V)
    (c : list (K * V)) (keys : list K) : list (exn + V) * list (K * V) :=
  match keys with
  | [] => ([], c)
  | key :: keys' =>
      let '(r, c1) := lru_call maxsize user_function c key in
      let '(rs, c2) := lru_calls maxsize user_function c1 keys' in
      (r :: rs, c2)
  end.

End LruCache.
End Functools.

(** ** [mwxml]: the pages and revisions of the dump *)

Module Mwxml.

Module User.
Record t := mk { id : option Z; text : option string }.
End User.

Module Revision.
Record t := mk {
  id : Z;
  parent_id : option Z;
  user : option User.t;
  minor : bool;
  comment : option string;
  model : string;
  format : string;
  timestamp : string;
  text : option string
}.
End Revision.

(** A page, and the revisions that iterating over it gives. *)
Module Page.
Record t := mk {
  id : Z;
  namespace : Z;
  title : string;
  revisions : list Revision.t
}.
End Page.

End Mwxml.

(** ** [wikidump/processors/bibliography_extractor.py] *)

Module Bibliography.

Definition FUZZY_MATCH_CUTOFF : Z := 91.

(** Modelled from the spec: [extractors.misc.Section] is not among the
    sources; a section has a name, a level and a body (data model of the
    specification, section 3). *)
Record WikiSection := mkSection { name : string; level : Z; full_body : string }.

(** What the module takes from code that is not among the sources: the
    synonym table [languages.bibliography], the scorer that
    [fuzzywuzzy.process.extractOne] uses by default (after its default
    processing of both strings), the section splitter
    [extractors.sections] (the sections it yields, in order),
    [utils.remove_comments], and [to_json] of a timestamp. *)
Class Collaborators := {
  bibliography : gmap string (list string);
  scorer : string -> string -> Z;
  sections : string -> list WikiSection;
  remove_comments : string -> string;
  timestamp_to_json : string -> string
}.

Module Revision.
Record t := mk {
  id : Z;
  parent_id : option Z;
  user : option Mwxml.User.t;
  minor : bool;
  comment : option string;
  model : string;
  format : string;
  timestamp : string;
  text : string;
  sections : list WikiSection
}.
End Revision.

(** *** The statistics *)

Record Performance := mkPerformance {
  start_time : option Z;
  end_time : option Z;
  revisions_analyzed : Z;
  pages_analyzed : Z
}.

(** The two [collections.Counter]: a missing name counts 0. *)
Record SectionNames := mkSectionNames {
  global : gmap string Z;
  last_revision : gmap string Z
}.

Record Stats := mkStats {
  performance : Performance;
  section_names : SectionNames
}.

(** [counter[key]] *)
Definition counter_get (counter : gmap string Z) (key : string) : Z :=
  default 0%Z (counter !! key).

(** [counter[key] += 1] *)
Definition counter_incr (counter : gmap string Z) (key : string) : gmap string Z :=
  <[key := (counter_get counter key + 1)%Z]> counter.

(** The [stats] that [main] creates. *)
Definition initial_stats : Stats :=
  mkStats (mkPerformance None None 0 0) (mkSectionNames ∅ ∅).

(** [section_names_stats['global'][name] += 1] *)
Definition incr_global (name : string) (st : Stats) : Stats :=
  mkStats (performance st)
    (mkSectionNames (counter_incr (global (section_names st)) name)
                    (last_revision (section_names st))).

(** [section_names_stats['last_revision'][name] += 1] *)
Definition incr_last_revision (name : string) (st : Stats) : Stats :=
  mkStats (performance st)
    (mkSectionNames (global (section_names st))
                    (counter_incr (last_revision (section_names st)) name)).

(** [stats['performance']['revisions_analyzed'] += 1] *)
Definition incr_revisions_analyzed (st : Stats) : Stats :=
  mkStats (mkPerformance (start_time (performance st)) (end_time (performance st))
             (revisions_analyzed (performance st) + 1) (pages_analyzed (performance st)))
    (section_names st).

(** [stats['performance']['pages_analyzed'] += 1] *)
Definition incr_pages_analyzed (st : Stats) : Stats :=
  mkStats (mkPerformance (start_time (performance st)) (end_time (performance st))
             (revisions_analyzed (performance st)) (pages_analyzed (performance st) + 1))
    (section_names st).

(** *** The mutable state of a run

    The dictionary [stats], which [main] and all generators share, and the
    cache of [is_bibliography], global to the process.  [history] is a
    ghost: the values that [stats] had before each of its updates, the
    latest first. *)

(** The arguments of a call of [is_bibliography], as they are passed: they
    are the key of the cache. *)
Definition call : Type := string * string * option Z.

Record World := mkWorld {
  stats : Stats;
  cache : list (call * bool);
  history : list Stats
}.

Definition initial_world : World := mkWorld initial_stats [] [].

(** One update of [stats]. *)
Definition update (f : Stats -> Stats) (w : World) : World :=
  mkWorld (f (stats w)) (cache w) (stats w :: history w).

(** Every value that [stats] has had, the current one first. *)
Definition states (w : World) : list Stats := stats w :: history w.

(** What a call of [next] on a generator gives. *)
Inductive gen_result (A : Type) :=
| Yield (a : A)
| StopIter
| Raise (e : exn).
Arguments Yield {A}.
Arguments StopIter {A}.
Arguments Raise {A}.

(** Where a generator is suspended. *)
Inductive gen_status := NotStarted | AtYield | Finished.

(** The generator object that a call of [extract_revisions] returns: its
    arguments, and where it is suspended.  [rev_pending] is what the
    peekable iterator over the page still holds. *)
Record RevisionsGenerator := mkRevGen {
  rev_language : string;
  rev_only_last_revision : bool;
  rev_status : gen_status;
  rev_pending : list Mwxml.Revision.t
}.

Module Page.
Record t := mk {
  id : Z;
  namespace : Z;
  title : string;
  revisions : RevisionsGenerator
}.
End Page.

(** The generator object that a call of [extract_pages] returns. *)
Record PagesGenerator := mkPagesGen {
  pages_language : string;
  pages_only_last_revision : bool;
  pages_status : gen_status;
  pages_pending : list Mwxml.Page.t
}.

(** Any consumer: it may advance the generator of the pages, or the
    generator of the revisions of a page it was given (the [i]-th), in any
    order and as often as it likes. *)
Inductive action := NextPage | NextRevision (i : nat).

Record System := mkSystem {
  world : World;
  pages_generator : PagesGenerator;
  revisions_generators : list RevisionsGenerator
}.

Section Classifier.
Context `{Collaborators}.

(** *** [is_bibliography] *)

(** [fuzzywuzzy.process.extractWithoutOrder]: the choices whose score
    reaches the cutoff, each with its score, in the order of the choices. *)
Definition extractWithoutOrder (query : string) (choices : list string)
    (score_cutoff : Z) : list (string * Z) :=
  filter (fun cs => (score_cutoff ≤ cs.2)%Z)
         (map (fun choice => (choice, scorer query choice)) choices).

(** [max(best_list, key=lambda i: i[1])]: the first of the elements with
    the highest score; [None] stands for the [ValueError] on no element. *)
Fixpoint max_by_score (best_list : list (string * Z)) : option (string * Z) :=
  match best_list with
  | [] => None
  | x :: l =>
      match max_by_score l with
      | None => Some x
      | Some y => if (x.2 <? y.2)%Z then Some y else Some x
      end
  end.

(** [fuzzywuzzy.process.extractOne] *)
Definition extractOne (query : string) (choices : list string)
    (score_cutoff : Z) : option (string * Z) :=
  max_by_score (extractWithoutOrder query choices score_cutoff).

(** The body of [is_bibliography]; a language without synonyms raises
    [KeyError].  [bool(match)]: a pair is true, [None] is false. *)
Definition is_bibliography_body (section_name language : string)
    (score_cutoff : Z) : exn + bool :=
  match bibliography !! language with
  | None => inl KeyError
  | Some bibliography_synonyms =>
      let match_ := extractOne section_name bibliography_synonyms score_cutoff in
      inr (match match_ with Some _ => true | None => false end)
  end.

(** The body, on the arguments of a call: [score_cutoff] has the default
    [FUZZY_MATCH_CUTOFF]. *)
Definition is_bibliography_of_call (c : call) : exn + bool :=
  let '(section_name, language, score_cutoff) := c in
  is_bibliography_body section_name language (default FUZZY_MATCH_CUTOFF score_cutoff).

(** [is_bibliography], as decorated with [functools.lru_cache(maxsize=500)]. *)
Definition is_bibliography (c : call) (w : World) : (exn + bool) * World :=
  let '(r, cache') := Functools.lru_call 500 is_bibliography_of_call (cache w) c in
  (r, mkWorld (stats w) cache' (history w)).

(** The words of the specification: the best score of the section name
    against every synonym; there is none when there is no synonym. *)
Fixpoint best_score (section_name : string) (synonyms : list string) : option Z :=
  match synonyms with
  | [] => None
  | synonym :: synonyms' =>
      match best_score section_name synonyms' with
      | None => Some (scorer section_name synonym)
      | Some b => Some (Z.max (scorer section_name synonym) b)
      end
  end.

(** *** [extract_revisions] *)

(** Modelled from the spec: [utils.has_next] is not among the sources; it
    is the one-ahead lookahead of the revision loop (section 4.5), true
    when the peekable iterator still holds a revision. *)
Definition has_next (revisions : list Mwxml.Revision.t) : bool :=
  match revisions with
  | [] => false
  | _ :: _ => true
  end.

(** The list of the sections [section] of [sections] for which
    [is_bibliography(section.name, language)] holds: the calls are made in
    the order of the sections, through the cache; the first one that raises
    ends the evaluation. *)
Fixpoint bibliography_sections_of (language : string) (sections : list WikiSection)
    (w : World) : (exn + list WikiSection) * World :=
  match sections with
  | [] => (inr [], w)
  | section :: sections' =>
      match is_bibliography (name section, language, None) w with
      | (inl e, w1) => (inl e, w1)
      | (inr b, w1) =>
          match bibliography_sections_of language sections' w1 with
          | (inl e, w2) => (inl e, w2)
          | (inr l, w2) => (inr (if b then section :: l else l), w2)
          end
      end
  end.

(** The [for section in bibliography_sections] loop that counts the names. *)
Fixpoint count_sections (is_last_revision : bool) (bibliography_sections : list WikiSection)
    (w : World) : World :=
  match bibliography_sections with
  | [] => w
  | section :: sections' =>
      let w1 := update (incr_global (name section)) w in
      let w2 := if is_last_revision
                then update (incr_last_revision (name section)) w1
                else w1 in
      count_sections is_last_revision sections' w2
  end.

Definition extract_revisions (mw_page : Mwxml.Page.t) (language : string)
    (only_last_revision : bool) : RevisionsGenerator :=
  mkRevGen language only_last_revision NotStarted (Mwxml.Page.revisions mw_page).

(** The body of the [for] loop, from the head of the loop to the next
    [yield], to the end of the revisions, or to an exception. *)
Fixpoint extract_revisions_loop (language : string) (only_last_revision : bool)
    (revisions : list Mwxml.Revision.t) (w : World)
    : gen_result Revision.t * list Mwxml.Revision.t * World :=
  match revisions with
  | [] => (StopIter, [], w)
  | mw_revision :: revisions' =>
      let is_last_revision := negb (has_next revisions') in
      if only_last_revision && negb is_last_revision then
        extract_revisions_loop language only_last_revision revisions' w
      else
        let text := remove_comments (default ""%string (Mwxml.Revision.text mw_revision)) in
        match bibliography_sections_of language (sections text) w with
        | (inl e, w1) => (Raise e, revisions', w1)
        | (inr bibliography_sections, w1) =>
            let w2 := count_sections is_last_revision bibliography_sections w1 in
            let text := String.concat "" (map full_body bibliography_sections) in
            (Yield (Revision.mk
                      (Mwxml.Revision.id mw_revision)
                      (Mwxml.Revision.parent_id mw_revision)
                      (Mwxml.Revision.user mw_revision)
                      (Mwxml.Revision.minor mw_revision)
                      (Mwxml.Revision.comment mw_revision)
                      (Mwxml.Revision.model mw_revision)
                      (Mwxml.Revision.format mw_revision)
                      (timestamp_to_json (Mwxml.Revision.timestamp mw_revision))
                      text
                      bibliography_sections),
             revisions', w2)
        end
  end.

Definition rev_resume (g : RevisionsGenerator) (w : World)
    : gen_result Revision.t * RevisionsGenerator * World :=
  let '(r, pending, w1) :=
    extract_revisions_loop (rev_language g) (rev_only_last_revision g) (rev_pending g) w in
  let status := match r with Yield _ => AtYield | _ => Finished end in
  (r, mkRevGen (rev_language g) (rev_only_last_revision g) status pending, w1).

(** [next] on the generator of [extract_revisions].  Resumed at the
    [yield], it first counts the revision that it had yielded. *)
Definition rev_next (g : RevisionsGenerator) (w : World)
    : gen_result Revision.t * RevisionsGenerator * World :=
  match rev_status g with
  | NotStarted => rev_resume g w
  | AtYield => rev_resume g (update incr_revisions_analyzed w)
  | Finished => (StopIter, g, w)
  end.

(** *** [extract_pages] *)

Definition extract_pages (dump : list Mwxml.Page.t) (language : string)
    (only_last_revision : bool) : PagesGenerator :=
  mkPagesGen language only_last_revision NotStarted dump.

Fixpoint extract_pages_loop (language : string) (only_last_revision : bool)
    (dump : list Mwxml.Page.t) : gen_result Page.t * list Mwxml.Page.t :=
  match dump with
  | [] => (StopIter, [])
  | mw_page :: dump' =>
      if negb (Mwxml.Page.namespace mw_page =? 0)%Z then
        extract_pages_loop language only_last_revision dump'
      else
        let revisions_generator := extract_revisions mw_page language only_last_revision in
        (Yield (Page.mk (Mwxml.Page.id mw_page) (Mwxml.Page.namespace mw_page)
                  (Mwxml.Page.title mw_page) revisions_generator),
         dump')
  end.

Definition pages_resume (g : PagesGenerator) (w : World)
    : gen_result Page.t * PagesGenerator * World :=
  let '(r, pending) :=
    extract_pages_loop (pages_language g) (pages_only_last_revision g) (pages_pending g) in
  let status := match r with Yield _ => AtYield | _ => Finished end in
  (r, mkPagesGen (pages_language g) (pages_only_last_revision g) status pending, w).

(** [next] on the generator of [extract_pages].  Resumed at the [yield],
    it first counts the page that it had yielded. *)
Definition pages_next (g : PagesGenerator) (w : World)
    : gen_result Page.t * PagesGenerator * World :=
  match pages_status g with
  | NotStarted => pages_resume g w
  | AtYield => pages_resume g (update incr_pages_analyzed w)
  | Finished => (StopIter, g, w)
  end.

(** *** The consumers *)

(** The consumer of [main], the template: [for page in pages], and in it
    [for revision in page.revisions].  An exception of a generator ends
    the rendering.  A generator yields once per revision at most, so one
    round more than it has revisions exhausts it. *)
Fixpoint consume_revisions (fuel : nat) (g : RevisionsGenerator) (w : World)
    : list Revision.t * option exn * World :=
  match fuel with
  | O => ([], None, w)
  | S fuel' =>
      match rev_next g w with
      | (Yield revision, g1, w1) =>
          let '(out, e, w2) := consume_revisions fuel' g1 w1 in
          (revision :: out, e, w2)
      | (StopIter, _, w1) => ([], None, w1)
      | (Raise e, _, w1) => ([], Some e, w1)
      end
  end.

Fixpoint consume_pages (fuel : nat) (g : PagesGenerator) (w : World)
    : list (Page.t * list Revision.t) * option exn * World :=
  match fuel with
  | O => ([], None, w)
  | S fuel' =>
      match pages_next g w with
      | (Yield page, g1, w1) =>
          let revisions := Page.revisions page in
          match consume_revisions (S (length (rev_pending revisions))) revisions w1 with
          | (out, Some e, w2) => ([(page, out)], Some e, w2)
          | (out, None, w2) =>
              let '(pages, e, w3) := consume_pages fuel' g1 w2 in
              ((page, out) :: pages, e, w3)
          end
      | (StopIter, _, w1) => ([], None, w1)
      | (Raise e, _, w1) => ([], Some e, w1)
      end
  end.

(** The pipeline consumed to its end: what was rendered, the exception that
    ended it, if any, and the state it leaves. *)
Definition run_pipeline (dump : list Mwxml.Page.t) (language : string)
    (only_last_revision : bool) (w : World)
    : list (Page.t * list Revision.t) * option exn * World :=
  let pages_generator := extract_pages dump language only_last_revision in
  consume_pages (S (length dump)) pages_generator w.

(** One action of an arbitrary consumer. *)
Definition step (a : action) (sys : System) : System :=
  match a with
  | NextPage =>
      let '(r, g1, w1) := pages_next (pages_generator sys) (world sys) in
      mkSystem w1 g1
        (match r with
         | Yield page => revisions_generators sys ++ [Page.revisions page]
         | _ => revisions_generators sys
         end)
  | NextRevision i =>
      match revisions_generators sys !! i with
      | None => sys
      | Some g =>
          let '(_, g1, w1) := rev_next g (world sys) in
          mkSystem w1 (pages_generator sys) (<[i := g1]> (revisions_generators sys))
      end
  end.

Definition run_actions (actions : list action) (sys : System) : System :=
  foldl (fun sys a => step a sys) sys actions.

(** The sections that are classified as bibliography, by the body of
    [is_bibliography] without its cache. *)
Fixpoint classified (language : string) (sections : list WikiSection)
    : exn + list WikiSection :=
  match sections with
  | [] => inr []
  | section :: sections' =>
      match is_bibliography_of_call (name section, language, None) with
      | inl e => inl e
      | inr b =>
          match classified language sections' with
          | inl e => inl e
          | inr l => inr (if b then section :: l else l)
          end
      end
  end.

(** The sections of a revision, as [extract_revisions] splits its text. *)
Definition sections_of (mw_revision : Mwxml.Revision.t) : list WikiSection :=
  sections (remove_comments (default ""%string (Mwxml.Revision.text mw_revision))).

(** A revision with exactly one section classified as bibliography, named
    [References]. *)
Definition one_references (language : string) (mw_revision : Mwxml.Revision.t) : Prop :=
  ∃ section, classified language (sections_of mw_revision) = inr [section]
             ∧ name section = "References"%string.

(** What the counting loop does to [stats]. *)
Definition count_stats (is_last_revision : bool) (bibliography_sections : list WikiSection)
    (st : Stats) : Stats :=
  foldl (fun st section =>
           let st1 := incr_global (name section) st in
           if is_last_revision then incr_last_revision (name section) st1 else st1)
        st bibliography_sections.

End Classifier.

(** A toy configuration for examples: one language with two synonyms, a
    scorer that knows equal strings only, and texts that are one section,
    named by the text. *)
Definition example_collaborators : Collaborators := {|
  bibliography := {[ "en"%string := ["References"; "Bibliography"]%string ]};
  scorer := fun a b => if String.eqb a b then 100%Z else 0%Z;
  sections := fun text => [mkSection text 2 text];
  remove_comments := fun text => text;
  timestamp_to_json := fun t => t
|}.

(** A page of three revisions whose text is the one section [References]. *)
Definition example_revision (id : Z) : Mwxml.Revision.t :=
  Mwxml.Revision.mk id None None false None "wikitext" "text/x-wiki"
    "2017-01-01T00:00:00Z" (Some "References"%string).

Definition example_page : Mwxml.Page.t :=
  Mwxml.Page.mk 7 0 "Title" [example_revision 1; example_revision 2; example_revision 3].

(** The invariant of the counters of the section names. *)
Definition last_le_global (st : Stats) : Prop :=
  ∀ name, (counter_get (last_revision (section_names st)) name
           ≤ counter_get (global (section_names st)) name)%Z.

(** Every value that [stats] has had satisfies the invariant. *)
Definition good (w : World) : Prop := Forall last_le_global (states w).

(** What a generator of revisions does to [stats] when it is resumed,
    before it goes on with its loop. *)
Definition resumed (status : gen_status) (st : Stats) : Stats :=
  match status with
  | AtYield => incr_revisions_analyzed st
  | _ => st
  end.

End Bibliography.

(** ** [wikidump/extractors/doi.py]: the island extractor, and what is
    said of the identifiers *)

Module DoiMore.
Import Regex Doi.

(** The characters at which an identifier ends: the ASCII white space, a
    line end, [|], [?] and [#]. *)
Definition is_terminator_char (c : N) : bool :=
  ((9 <=? c)%N && (c <=? 13)%N) || (c =? 32)%N || (c =? 124)%N
  || (c =? 63)%N || (c =? 35)%N.

(** The number of occurrences of a character. *)
Definition count_char (c : N) (s : list N) : nat :=
  length (filter (fun x => x = c) s).

(** At no point of the text have more closers been read than openers. *)
Definition never_closes_unopened (opener closer : N) (s : list N) : Prop :=
  ∀ k, count_char closer (take k s) ≤ count_char opener (take k s).

(** The number of tokens of a name. *)
Definition count_name (name : token_name) (tokens : list token) : nat :=
  length (filter (fun tok : token => tok.1 = name) tokens).

Section Island.
Context `{UnicodeTables}.

(** The loop of [extract_island] over the peekable token stream: at a
    [doi_start] token an identifier is read and yielded; then one token is
    dropped with [next(tokens)], which raises [StopIteration] inside the
    generator when [read_doi] has left none (the consumer sees the
    generator end, and from Python 3.7 on a [RuntimeError]).  Every round
    drops a token, so one round per token is enough. *)
Fixpoint extract_island_loop (fuel : nat) (tokens : list token)
    : list (string * Common.Identifier) * option exn :=
  match fuel with
  | O => ([], None)
  | S fuel' =>
      match tokens with
      | [] => ([], None)
      | (name, _) :: tokens' =>
          if decide (name = doi_start) then
            match read_doi tokens with
            | inl e => ([], Some e)
            | inr (identifier, rest) =>
                match rest with
                | [] => ([("doi"%string, identifier)], Some StopIteration)
                | _ :: rest' =>
                    let '(out, e) := extract_island_loop fuel' rest' in
                    (("doi"%string, identifier) :: out, e)
                end
            end
          else extract_island_loop fuel' tokens'
      end
  end.

(** [extract_island(text)] *)
Definition extract_island (text : list N)
    : list (string * Common.Identifier) * option exn :=
  let tokens := tokenize_finditer text in
  extract_island_loop (length tokens) tokens.

(** A token as the lexer produces it: the first group of the lexicon that
    matches at a character of the text, and the text of that match. *)
Definition lexer_token (tok : token) : Prop :=
  ∃ c s n, match_here _lexicon_re (c :: s) false = Some (tok.1, n)
           ∧ tok.2 = take n (c :: s).

(** What [extract_search] does for a capture: it starts at a match of
    [DOI_START_RE] behind offset 0, tokenizes from there, and the id is
    what [read_doi] makes of the accumulated text. *)
Definition captured (text : list N) (r : Common.CaptureResult) : Prop :=
  ∃ m match_ tokens,
    m ∈ finditer DOI_START_RE text
    ∧ 0 < m_start m
    ∧ Common.span_start (Common.span r) = m_start m
    ∧ tokenize_search text (m_start m) = (doi_start, match_) :: tokens
    ∧ Common.value r
      = Common.mkIdentifier "doi" (strip_punctuation_at_end (accumulated match_ tokens))
    ∧ Common.span_end (Common.span r)
      = m_start m + length (Common.id (Common.value r)).

(** The tokens read so far hold no more [closer] tokens than the depth [d]
    at the start and the [opener] tokens allow, at any point. *)
Definition balanced_from (opener closer : token_name) (d : Z) (consumed : list token)
    : Prop :=
  ∀ j, (Z.of_nat (count_name closer (take j consumed))
        ≤ d + Z.of_nat (count_name opener (take j consumed)))%Z.

(** The text of a token, as far as a pair of an opener and a closer goes:
    the opener is its character, the closer is its character, and no other
    token that is accumulated holds either character. *)
Definition shaped (opener closer : token_name) (oc cc : N) (tok : token) : Prop :=
  (tok.1 = opener → tok.2 = [oc])
  ∧ (tok.1 = closer → tok.2 = [cc])
  ∧ (tok.1 ≠ opener → tok.1 ≠ closer → (oc ∉ tok.2) ∧ (cc ∉ tok.2)).

(** What [extract_island] does for an item: it stands at a [doi_start]
    token of the token sequence [all], and the id is what [read_doi] makes
    of the text accumulated from there. *)
Definition island_read (all : list token) (item : string * Common.Identifier) : Prop :=
  ∃ before match_ tokens,
    all = before ++ (doi_start, match_) :: tokens
    ∧ item = ("doi"%string,
              Common.mkIdentifier "doi" (strip_punctuation_at_end (accumulated match_ tokens))).

End Island.
End DoiMore.

(** ** [wikidump/processors/bibliography_extractor.py]: what a run renders
    and what it counts *)

Module BibliographyMore.
Import Functools Bibliography.






(** What distinguishes two values of [stats]: the times are the same, and
    the counters have grown by the given amounts. *)
Definition accounts (st st' : Stats) (revisions pages : Z) (global_ last_ : string -> Z)
    : Prop :=
  start_time (performance st') = start_time (performance st)
  ∧ end_time (performance st') = end_time (performance st)
  ∧ revisions_analyzed (performance st') = (revisions_analyzed (performance st) + revisions)%Z
  ∧ pages_analyzed (performance st') = (pages_analyzed (performance st) + pages)%Z
  ∧ (∀ section_name,
       counter_get (global (section_names st')) section_name
       = (counter_get (global (section_names st)) section_name + global_ section_name)%Z)
  ∧ (∀ section_name,
       counter_get (last_revision (section_names st')) section_name
       = (counter_get (last_revision (section_names st)) section_name
          + last_ section_name)%Z).




(** What a consumer may have done to [stats]: the times are the same, no
    counter is smaller, and [revisions_analyzed] and [pages_analyzed] have
    grown by the given amounts at most. *)
Definition grown (st st' : Stats) (revisions pages : Z) : Prop :=
  start_time (performance st') = start_time (performance st)
  ∧ end_time (performance st') = end_time (performance st)
  ∧ (revisions_analyzed (performance st) ≤ revisions_analyzed (performance st')
     ≤ revisions_analyzed (performance st) + revisions)%Z
  ∧ (pages_analyzed (performance st) ≤ pages_analyzed (performance st')
     ≤ pages_analyzed (performance st) + pages)%Z
  ∧ (∀ section_name,
       (counter_get (global (section_names st)) section_name
        ≤ counter_get (global (section_names st')) section_name)%Z)
  ∧ (∀ section_name,
       (counter_get (last_revision (section_names st)) section_name
        ≤ counter_get (last_revision (section_names st')) section_name)%Z).

Section Rendering.
Context `{Collaborators}.





(** Whether a section name scores [FUZZY_MATCH_CUTOFF] or more against one
    of the synonyms. *)
Definition reaches_cutoff (synonyms : list string) (section_name : string) : bool :=
  existsb (fun synonym => (FUZZY_MATCH_CUTOFF <=? scorer section_name synonym)%Z) synonyms.

(** The sections of a revision whose name reaches the cutoff, in their
    order. *)
Definition bibliography_sections (synonyms : list string) (mw_revision : Mwxml.Revision.t)
    : list WikiSection :=
  List.filter (fun section => reaches_cutoff synonyms (name section)) (sections_of mw_revision).




End Rendering.
End BibliographyMore.

(** * Properties *)

(** ** The regular-expression engine *)

Module RegexFacts.
Import Regex.

Lemma star_loop_sound p s n k m :
  star_loop p s n k = Some m →
  ∃ w rest, s = w ++ rest ∧ Forall (fun c => p c = true) w
            ∧ k rest (n + length w) = Some m.
Proof.
  revert n. induction s as [|c s IH]; intros n Hm; simpl in Hm.
  - exists [], []. rewrite Nat.add_0_r. auto.
  - destruct (p c) eqn:Hc.
    + destruct (star_loop p s (S n) k) as [m'|] eqn:Hr.
      * injection Hm as ->. destruct (IH _ Hr) as (w & rest & -> & Hw & Hk).
        exists (c :: w), rest. split; [done|]. split; [by constructor|].
        simpl. by rewrite Nat.add_succ_r.
      * exists [], (c :: s). rewrite Nat.add_0_r. auto.
    + exists [], (c :: s). rewrite Nat.add_0_r. auto.
Qed.

(** Whatever the matcher accepts is a match in the declarative sense, and
    the rest of the pattern has run on what follows it. *)
Lemma exec_sound r : ∀ s n k m,
  exec r s n k = Some m →
  ∃ w rest, s = w ++ rest ∧ lang r w rest ∧ k rest (n + length w) = Some m.
Proof.
  induction r as [| |p|a IHa b IHb|a IHa b IHb|p]; intros s n k m Hm; simpl in Hm.
  - exists [], s. rewrite Nat.add_0_r. simpl. auto.
  - destruct s as [|c [|c' s]]; [|destruct (N.eqb_spec c 10) as [->|]|]; try done.
    + exists [], []. rewrite Nat.add_0_r. simpl. auto.
    + exists [], [10%N]. rewrite Nat.add_0_r. simpl. auto.
  - destruct s as [|c s]; [done|]. destruct (p c) eqn:Hc; [|done].
    exists [c], s. simpl. rewrite Nat.add_1_r. eauto.
  - destruct (IHa _ _ _ _ Hm) as (w1 & rest1 & -> & Ha & Hk).
    destruct (IHb _ _ _ _ Hk) as (w2 & rest & -> & Hb & Hk').
    exists (w1 ++ w2), rest. rewrite <- app_assoc. split; [done|].
    split; [simpl; eauto|]. by rewrite length_app, Nat.add_assoc.
  - destruct (exec a s n k) as [m'|] eqn:Ha.
    + injection Hm as ->. destruct (IHa _ _ _ _ Ha) as (w & rest & -> & Hw & Hk).
      exists w, rest. simpl. auto.
    + destruct (IHb _ _ _ _ Hm) as (w & rest & -> & Hw & Hk).
      exists w, rest. simpl. auto.
  - destruct (star_loop_sound _ _ _ _ _ Hm) as (w & rest & -> & Hw & Hk).
    exists w, rest. simpl. auto.
Qed.

Lemma lang_min_len r : ∀ w rest, lang r w rest → min_len r ≤ length w.
Proof.
  induction r as [| |p|a IHa b IHb|a IHa b IHb|p]; intros w rest Hw; simpl in *.
  - lia.
  - lia.
  - destruct Hw as (c & -> & _). simpl. lia.
  - destruct Hw as (w1 & w2 & -> & H1 & H2). rewrite length_app.
    specialize (IHa _ _ H1). specialize (IHb _ _ H2). lia.
  - destruct Hw as [Hw|Hw]; [specialize (IHa _ _ Hw)|specialize (IHb _ _ Hw)]; lia.
  - lia.
Qed.

Lemma lang_excludes c r : ∀ w rest,
  excludes c r = true → lang r w rest → c ∉ w.
Proof.
  induction r as [| |p|a IHa b IHb|a IHa b IHb|p]; intros w rest Hx Hw; simpl in *.
  - subst. apply not_elem_of_nil.
  - destruct Hw as [-> _]. apply not_elem_of_nil.
  - destruct Hw as (c' & -> & Hc'). intros ->%list_elem_of_singleton.
    rewrite Hc' in Hx. done.
  - apply andb_true_iff in Hx as [Hxa Hxb].
    destruct Hw as (w1 & w2 & -> & H1 & H2). rewrite elem_of_app.
    intros [?|?]; [by eapply IHa|by eapply IHb].
  - apply andb_true_iff in Hx as [Hxa Hxb].
    destruct Hw as [Hw|Hw]; [by eapply IHa|by eapply IHb].
  - intros Hin. rewrite Forall_forall in Hw. specialize (Hw _ Hin).
    rewrite Hw in Hx. done.
Qed.

(** A match of a whole pattern: its length, and what it matched. *)
Lemma exec_accept r s adv n :
  exec r s 0 (accept adv) = Some n →
  n ≤ length s ∧ min_len r ≤ n ∧ lang r (take n s) (drop n s).
Proof.
  intros (w & rest & -> & Hw & Hk)%exec_sound. unfold accept in Hk. simpl in Hk.
  destruct (adv && (length w =? 0)); [done|]. injection Hk as <-.
  rewrite take_app_length, drop_app_length, length_app.
  split; [lia|]. split; [by eapply lang_min_len|done].
Qed.

Lemma match_here_sound {A} (re : compiled A) s adv name n :
  match_here re s adv = Some (name, n) →
  ∃ r, (r, name) ∈ re ∧ exec r s 0 (accept adv) = Some n.
Proof.
  induction re as [|[r a] re IH]; simpl; [done|].
  destruct (exec r s 0 (accept adv)) as [n'|] eqn:Hr.
  - intros [= -> ->]. exists r. split; [left|done].
  - intros (r' & Hin & Hr')%IH. exists r'. split; [by right|done].
Qed.

Lemma match_here_complete {A} (re : compiled A) s adv r name :
  (r, name) ∈ re → is_Some (exec r s 0 (accept adv)) →
  is_Some (match_here re s adv).
Proof.
  induction re as [|[r' a] re IH]; simpl.
  - by intros ?%elem_of_nil.
  - intros [[= -> ->]|Hin]%elem_of_cons Hs.
    + destruct Hs as [n ->]. eauto.
    + destruct (exec r' s 0 (accept adv)); eauto.
Qed.

(** The star never fails when the rest of the pattern cannot fail. *)
Lemma star_loop_total p s n k :
  (∀ s' n', is_Some (k s' n')) → is_Some (star_loop p s n k).
Proof.
  intros Hk. revert n. induction s as [|c s IH]; intros n; simpl; [done|].
  destruct (p c); [|done]. destruct (star_loop p s (S n) k); eauto.
Qed.

Lemma exec_cls p c s adv :
  p c = true → exec (Cls p) (c :: s) 0 (accept adv) = Some 1.
Proof. intros Hc. simpl. rewrite Hc. unfold accept. by rewrite andb_false_r. Qed.

Lemma exec_plus p c s :
  p c = true → is_Some (exec (Plus p) (c :: s) 0 (accept false)).
Proof.
  intros Hc. simpl. rewrite Hc. apply star_loop_total. intros; unfold accept; simpl; eauto.
Qed.

End RegexFacts.

(** ** The lexer *)

Module LexerFacts.
Import Regex RegexFacts Doi.

Section Lexer.
Context `{UnicodeTables}.

(** No pattern of the lexicon matches the empty string. *)
Lemma lexicon_min_len : Forall (fun e => 1 ≤ min_len e.1) LEXICON.
Proof. unfold LEXICON. repeat (apply List.Forall_cons; [vm_compute; lia|]). apply List.Forall_nil. Qed.

Lemma lexicon_match s adv name n :
  match_here _lexicon_re s adv = Some (name, n) →
  1 ≤ n ≤ length s ∧ lexed (name, take n s).
Proof.
  intros (r & Hin & Hr)%match_here_sound.
  destruct (exec_accept _ _ _ _ Hr) as (Hle & Hmin & Hlang).
  pose proof lexicon_min_len as Hall. rewrite Forall_forall in Hall.
  specialize (Hall _ Hin). simpl in Hall. split; [lia|].
  exists r, (drop n s). done.
Qed.

Lemma lexicon_match_nil adv : match_here _lexicon_re [] adv = None.
Proof.
  destruct (match_here _lexicon_re [] adv) as [[name n]|] eqn:Hm; [|done].
  apply lexicon_match in Hm as [Hn _]. simpl in Hn. lia.
Qed.

(** The catch-all guarantees a match at every character: a line feed is a
    [break], anything else is at least an [etc]. *)
Lemma lexicon_total c s : is_Some (match_here _lexicon_re (c :: s) false).
Proof.
  destruct (N.eqb_spec c 10) as [->|Hc].
  - apply (match_here_complete _ _ _ (Plus is_newline) break).
    + unfold _lexicon_re, compile_lexicon, LEXICON. set_solver.
    + by apply exec_plus.
  - apply (match_here_complete _ _ _ (Cls is_dot) etc).
    + unfold _lexicon_re, compile_lexicon, LEXICON. set_solver.
    + rewrite exec_cls; [eauto|]. unfold is_dot.
      by apply negb_true_iff, N.eqb_neq.
Qed.

Lemma search_nil pos adv : search_from _lexicon_re [] pos adv = None.
Proof. cbn [search_from]. by rewrite lexicon_match_nil. Qed.

(** So a search finds its match where it starts: no character is skipped. *)
Lemma search_cons c s pos :
  ∃ name n, match_here _lexicon_re (c :: s) false = Some (name, n)
            ∧ search_from _lexicon_re (c :: s) pos false
              = Some (mkMatch name pos (pos + n)).
Proof.
  destruct (lexicon_total c s) as [[name n] Hm].
  exists name, n. split; [done|]. cbn [search_from]. by rewrite Hm.
Qed.

Lemma finditer_from_nil fuel text pos adv :
  drop pos text = [] → finditer_from fuel _lexicon_re text pos adv = [].
Proof.
  intros Hd. destruct fuel as [|fuel]; [done|]. cbn [finditer_from]. unfold search.
  by rewrite Hd, search_nil.
Qed.

Lemma finditer_from_cons fuel text pos c s :
  drop pos text = c :: s →
  ∃ name n, match_here _lexicon_re (c :: s) false = Some (name, n)
    ∧ finditer_from (S fuel) _lexicon_re text pos false
      = mkMatch name pos (pos + n)
          :: finditer_from fuel _lexicon_re text (pos + n) false.
Proof.
  intros Hd. destruct (search_cons c s pos) as (name & n & Hm & Hs).
  exists name, n. split; [done|]. cbn [finditer_from]. unfold search.
  rewrite Hd, Hs. cbn [m_end m_start].
  apply lexicon_match in Hm as [Hn _].
  replace (pos + n =? pos) with false; [done|].
  symmetry. apply Nat.eqb_neq. lia.
Qed.

Lemma token_of_at text name pos n :
  token_of text (mkMatch name pos (pos + n)) = (name, take n (drop pos text)).
Proof. unfold token_of, group0. simpl. by replace (pos + n - pos) with n by lia. Qed.

Lemma finditer_from_lossless fuel : ∀ text pos,
  length (drop pos text) ≤ fuel →
  concat (map snd (map (token_of text) (finditer_from fuel _lexicon_re text pos false)))
  = drop pos text.
Proof.
  induction fuel as [|fuel IH]; intros text pos Hfuel.
  - destruct (drop pos text); [done|simpl in Hfuel; lia].
  - destruct (drop pos text) as [|c s] eqn:Hd.
    + by rewrite finditer_from_nil.
    + destruct (finditer_from_cons fuel _ _ _ _ Hd) as (name & n & Hm & ->).
      apply lexicon_match in Hm as [Hn _].
      rewrite !map_cons, token_of_at, concat_cons. cbn [snd].
      rewrite IH.
      * rewrite <- drop_drop, Hd. apply take_drop.
      * rewrite <- drop_drop, Hd, length_drop. simpl in *. lia.
Qed.

Lemma finditer_from_contiguous fuel : ∀ text pos,
  pos ≤ length text → length text - pos ≤ fuel →
  contiguous pos (finditer_from fuel _lexicon_re text pos false) (length text).
Proof.
  induction fuel as [|fuel IH]; intros text pos Hpos Hfuel.
  - simpl. lia.
  - destruct (drop pos text) as [|c s] eqn:Hd.
    + rewrite finditer_from_nil by done. simpl.
      apply (f_equal length) in Hd. rewrite length_drop in Hd. simpl in Hd. lia.
    + destruct (finditer_from_cons fuel _ _ _ _ Hd) as (name & n & Hm & ->).
      apply lexicon_match in Hm as [Hn _].
      apply (f_equal length) in Hd. rewrite length_drop in Hd. simpl in Hd, Hn.
      simpl. split; [done|]. split; [lia|]. apply IH; lia.
Qed.

Lemma finditer_from_Lexes fuel : ∀ text pos,
  length (drop pos text) ≤ fuel →
  Lexes (drop pos text)
    (map (token_of text) (finditer_from fuel _lexicon_re text pos false)).
Proof.
  induction fuel as [|fuel IH]; intros text pos Hfuel.
  - destruct (drop pos text); [constructor|simpl in Hfuel; lia].
  - destruct (drop pos text) as [|c s] eqn:Hd.
    + rewrite finditer_from_nil by done. constructor.
    + destruct (finditer_from_cons fuel _ _ _ _ Hd) as (name & n & Hm & ->).
      rewrite map_cons, token_of_at, Hd. constructor; [done|].
      apply lexicon_match in Hm as [Hn _].
      rewrite <- Hd, drop_drop. apply IH.
      rewrite <- drop_drop, Hd, length_drop. simpl in *. lia.
Qed.

Lemma tokenize_search_loop_Lexes fuel : ∀ text pos,
  length (drop pos text) ≤ fuel →
  Lexes (drop pos text)
    (tokenize_search_loop fuel text (search _lexicon_re text pos false)).
Proof.
  induction fuel as [|fuel IH]; intros text pos Hfuel.
  - destruct (drop pos text); [constructor|simpl in Hfuel; lia].
  - unfold search at 1. destruct (drop pos text) as [|c s] eqn:Hd.
    + rewrite search_nil. constructor.
    + destruct (search_cons c s pos) as (name & n & Hm & ->).
      cbn [tokenize_search_loop m_end]. rewrite token_of_at, Hd.
      constructor; [done|].
      apply lexicon_match in Hm as [Hn _].
      rewrite <- Hd, drop_drop. apply IH.
      rewrite <- drop_drop, Hd, length_drop. simpl in *. lia.
Qed.

Lemma tokenize_finditer_Lexes text : Lexes text (tokenize_finditer text).
Proof.
  pose proof (finditer_from_Lexes (2 * length text + 2) text 0) as HL.
  rewrite drop_0 in HL. apply HL. lia.
Qed.

Lemma tokenize_search_Lexes text start :
  Lexes (drop start text) (tokenize_search text start).
Proof. apply tokenize_search_loop_Lexes. rewrite length_drop. lia. Qed.

(** The token sequence of a text is unique, so the two tokenizers agree. *)
Lemma Lexes_unique s toks1 : Lexes s toks1 → ∀ toks2, Lexes s toks2 → toks1 = toks2.
Proof.
  induction 1 as [|c s name n toks Hm _ IH]; intros toks2 H2; inversion H2; subst.
  - done.
  - match goal with Hm' : match_here _ _ _ = _ |- _ => rewrite Hm in Hm' end.
    simplify_eq. f_equal. by apply IH.
Qed.

Lemma tokenize_search_finditer text : tokenize_search text 0 = tokenize_finditer text.
Proof.
  eapply Lexes_unique; [|apply tokenize_finditer_Lexes].
  pose proof (tokenize_search_Lexes text 0) as HL. by rewrite drop_0 in HL.
Qed.

Lemma Lexes_lossless s toks : Lexes s toks → concat (map snd toks) = s.
Proof.
  induction 1 as [|c s name n toks Hm _ IH]; [done|].
  rewrite map_cons, concat_cons, IH. apply take_drop.
Qed.

Lemma Lexes_lexed s toks : Lexes s toks → Forall lexed toks.
Proof.
  induction 1 as [|c s name n toks Hm _ IH]; constructor; [|done].
  by apply lexicon_match in Hm as [_ ?].
Qed.

End Lexer.

(** C1 (losslessness of the lexer).  For every input text, the texts of the
    tokens that [tokenize_finditer] produces with the fixed [LEXICON],
    concatenated in order, are the input text; the matches behind the
    tokens tile the text from its first to its last character, each one
    starting where the one before it ended (no gap, no overlap) and none
    being empty. *)
Theorem tokenize_finditer_lossless `{UnicodeTables} (text : list N) :
  concat (map snd (tokenize_finditer text)) = text
  ∧ tokenize_finditer text
    = map (token_of text) (finditer (compile_lexicon LEXICON) text)
  ∧ contiguous 0 (finditer (compile_lexicon LEXICON) text) (length text).
Proof.
  split; [|split].
  - apply Lexes_lossless, tokenize_finditer_Lexes.
  - done.
  - apply finditer_from_contiguous; lia.
Qed.

(** X1 (the two tokenizers).  [tokenize_search] from an offset gives the
    tokens that [tokenize_finditer] gives for the text from that offset on
    (from offset 0, those of the whole text): the lexer does not look
    behind the offset.  Its tokens concatenate to the text from the offset
    on. *)
Theorem tokenizers_agree `{UnicodeTables} (text : list N) (start : nat) :
  tokenize_search text 0 = tokenize_finditer text
  ∧ tokenize_search text start = tokenize_finditer (drop start text)
  ∧ concat (map snd (tokenize_search text start)) = drop start text.
Proof.
  split; [apply tokenize_search_finditer|]. split.
  - eapply Lexes_unique; [apply tokenize_search_Lexes|apply tokenize_finditer_Lexes].
  - apply Lexes_lossless, tokenize_search_Lexes.
Qed.

End LexerFacts.

(** ** [read_doi] *)

Module ReadDoiFacts.
Import Regex RegexFacts Doi LexerFacts.

Section ReadDoi.
Context `{UnicodeTables}.

(** *** The substitution of [_punctuation_at_end_re] *)

Lemma exec_eol s n adv :
  1 ≤ n → exec Eol s n (accept adv) = if at_eol s then Some n else None.
Proof.
  intros Hn.
  assert (∀ s', accept adv s' n = Some n) as Hacc.
  { intros s'. unfold accept.
    replace (n =? 0) with false by (symmetry; apply Nat.eqb_neq; lia).
    by rewrite andb_false_r. }
  destruct s as [|c [|c' s]]; simpl; rewrite ?Hacc; done.
Qed.

Lemma star_loop_eol p adv :
  p 10%N = false → ∀ s n, 1 ≤ n →
  star_loop p s n (fun s' n' => exec Eol s' n' (accept adv))
  = if at_eol (drop_while p s) then Some (n + length (take_while p s)) else None.
Proof.
  intros Hp s. induction s as [|c s IH]; intros n Hn.
  - cbn [star_loop]. rewrite exec_eol by done. simpl. by rewrite Nat.add_0_r.
  - cbn [star_loop drop_while take_while]. destruct (p c) eqn:Hc.
    + rewrite IH by lia. destruct (at_eol (drop_while p s)).
      * simpl. f_equal. lia.
      * rewrite exec_eol by done. destruct s as [|c' s]; [|done]. simpl.
        destruct (N.eqb_spec c 10) as [->|]; [congruence|done].
    + rewrite exec_eol by done. simpl length. by rewrite Nat.add_0_r.
Qed.

Lemma exec_punctuation_at_end s adv :
  exec _punctuation_at_end_re s 0 (accept adv)
  = match s with
    | c :: s' =>
        if is_end_punct c && at_eol (drop_while is_end_punct s')
        then Some (S (length (take_while is_end_punct s')))
        else None
    | [] => None
    end.
Proof.
  destruct s as [|c s]; [done|]. unfold _punctuation_at_end_re, Plus.
  cbn [exec]. destruct (is_end_punct c); [|done].
  rewrite (star_loop_eol is_end_punct adv) by (done || lia).
  by destruct (at_eol _).
Qed.

Lemma drop_take_while p s : drop (length (take_while p s)) s = drop_while p s.
Proof. induction s as [|c s IH]; simpl; [done|]. by destruct (p c). Qed.

Lemma take_drop_while p s : take_while p s ++ drop_while p s = s.
Proof. induction s as [|c s IH]; simpl; [done|]. destruct (p c); simpl; by f_equal. Qed.

Lemma take_while_Forall p s : Forall (fun c => p c = true) (take_while p s).
Proof. induction s as [|c s IH]; simpl; [done|]. destruct (p c) eqn:?; by constructor. Qed.

Lemma drop_while_head p s c : head (drop_while p s) = Some c → p c = false.
Proof.
  induction s as [|c' s IH]; simpl; [done|]. destruct (p c') eqn:?; [done|].
  simpl. congruence.
Qed.

Lemma sub_from_at_eol fuel s :
  at_eol s = true → is_end_punct 10%N = false →
  sub_empty_from fuel _punctuation_at_end_re s false = s.
Proof.
  intros Hs _. destruct fuel as [|fuel]; [done|]. cbn [sub_empty_from].
  rewrite exec_punctuation_at_end. destruct s as [|c [|c' s]]; try done.
  simpl in Hs. apply N.eqb_eq in Hs as ->. simpl. by destruct fuel.
Qed.

Lemma sub_from_punctuation_at_end fuel : ∀ s,
  length s ≤ fuel →
  sub_empty_from fuel _punctuation_at_end_re s false = strip_punctuation_at_end s.
Proof.
  induction fuel as [|fuel IH]; intros s Hfuel.
  - destruct s; [done|simpl in Hfuel; lia].
  - cbn [sub_empty_from]. rewrite exec_punctuation_at_end.
    destruct s as [|c s]; [done|]. cbn [strip_punctuation_at_end].
    destruct (is_end_punct c && at_eol (drop_while is_end_punct s)) eqn:Hc.
    + apply andb_true_iff in Hc as [_ Heol].
      change (drop (S ?n) (c :: s)) with (drop n s).
      rewrite drop_take_while. by apply sub_from_at_eol.
    + rewrite IH; [done|]. simpl in Hfuel. lia.
Qed.

(** The substitution is the recursion [strip_punctuation_at_end]. *)
Lemma sub_punctuation_at_end s :
  sub_empty _punctuation_at_end_re s = strip_punctuation_at_end s.
Proof. apply sub_from_punctuation_at_end. lia. Qed.

(** Nothing is deleted before a character that is outside the set and is
    not a line feed. *)
Lemma strip_keeps_prefix a c b :
  is_end_punct c = false → c ≠ 10%N →
  ∃ b', strip_punctuation_at_end (a ++ c :: b) = a ++ c :: b'.
Proof.
  intros Hc Hnl. induction a as [|x a IH].
  - simpl. rewrite Hc. simpl. eauto.
  - cbn [app strip_punctuation_at_end].
    destruct (is_end_punct x && at_eol (drop_while is_end_punct (a ++ c :: b))) eqn:Hx.
    + exfalso. apply andb_true_iff in Hx as [_ Heol]. clear IH.
      induction a as [|y a IHa]; simpl in Heol.
      * rewrite Hc in Heol. destruct b; [|done]. simpl in Heol.
        apply N.eqb_eq in Heol as ->. done.
      * destruct (is_end_punct y) eqn:Hy; [auto|].
        destruct (a ++ c :: b) eqn:Hab; [by destruct a|]. simpl in Heol.
        done.
    + destruct IH as [b' ->]. eauto.
Qed.

Lemma drop_while_all p s : drop_while p s = [] → Forall (fun c => p c = true) s.
Proof.
  induction s as [|c s IH]; simpl; [done|]. destruct (p c) eqn:?; [|done].
  intros ?. constructor; auto.
Qed.

(** When the text does not end in a line feed, the substitution deletes
    the trailing run of the set, all of it, and nothing else. *)
Lemma strip_trailing_run s :
  last s ≠ Some 10%N → strips_trailing_run s (strip_punctuation_at_end s).
Proof.
  induction s as [|c s IH]; intros Hlast.
  - exists []. simpl. split; [done|]. split; [done|]. done.
  - cbn [strip_punctuation_at_end].
    destruct (is_end_punct c && at_eol (drop_while is_end_punct s)) eqn:Hc.
    + apply andb_true_iff in Hc as [Hc Heol].
      assert (drop_while is_end_punct s = []) as Hd.
      { destruct (drop_while is_end_punct s) as [|x [|y l]] eqn:Hd; try done.
        simpl in Heol. apply N.eqb_eq in Heol as ->. exfalso. apply Hlast.
        rewrite <- (take_drop_while is_end_punct s), Hd.
        change (c :: ?l ++ [10%N]) with ((c :: l) ++ [10%N]). apply last_snoc. }
      rewrite Hd. exists (c :: s). split; [done|].
      split; [constructor; [done|by apply drop_while_all]|done].
    + destruct IH as (run & Hs & Hrun & Hl).
      { intros Hs. apply Hlast. destruct s; [done|]. by rewrite last_cons_cons. }
      exists run. split; [simpl; by f_equal|]. split; [done|].
      intros x Hx. destruct (strip_punctuation_at_end s) as [|y l] eqn:Hstrip.
      * simpl in Hx. injection Hx as <-. simpl in Hs. subst run.
        apply andb_false_iff in Hc as [Hc|Hc]; [done|].
        assert (drop_while is_end_punct s = []) as Hd.
        { clear -Hrun. induction Hrun as [|y l Hy _ IHl]; simpl; [done|]. by rewrite Hy. }
        by rewrite Hd in Hc.
      * rewrite last_cons_cons in Hx. auto.
Qed.

(** *** What the identifier-start pattern matches *)

Lemma lang_lit a w rest : lang (lit a) w rest → w = [N_of_ascii a].
Proof. simpl. intros (c & -> & Hc). apply N.eqb_eq in Hc. by subst. Qed.

Lemma lang_lits str : ∀ w rest, lang (lits str) w rest → w = text_of str.
Proof.
  induction str as [|a str IH]; intros w rest; cbn [lits lang].
  - done.
  - intros (w1 & w2 & -> & H1 & H2). apply lang_lit in H1 as ->.
    apply IH in H2 as ->. done.
Qed.

Lemma lang_rep_cls n p : ∀ w rest,
  lang (Rep n (Cls p)) w rest → length w = n ∧ Forall (fun c => p c = true) w.
Proof.
  induction n as [|n IH]; intros w rest; cbn [Rep lang].
  - by intros ->.
  - intros (w1 & w2 & -> & (c & -> & Hc) & H2). apply IH in H2 as [<- H2].
    split; [done|]. by constructor.
Qed.

(** A match of [DOI_START_RE] is [10.], four digits or more, and a [/]. *)
Lemma lang_doi_start w rest :
  lang DOI_START_pattern w rest →
  ∃ ds, w = text_of "10." ++ ds ++ [47%N]
        ∧ Forall (fun c => is_digit c = true) ds ∧ 4 ≤ length ds.
Proof.
  unfold DOI_START_pattern. cbn [lang].
  intros (w1 & w2 & -> & H1 & w3 & w4 & -> & H3 & w5 & w6 & -> & H5 & H6).
  apply lang_lits in H1 as ->. apply lang_rep_cls in H3 as [Hlen H3].
  apply lang_lit in H6 as ->. exists (w3 ++ w5).
  split; [by rewrite <- !app_assoc|]. split; [by apply Forall_app|].
  rewrite length_app. lia.
Qed.

Lemma lexicon_doi_start r : (r, doi_start) ∈ LEXICON → r = DOI_START_pattern.
Proof.
  unfold LEXICON. intros Hin.
  repeat (apply elem_of_cons in Hin as [Hin|Hin]; [by simplify_eq|]).
  by apply elem_of_nil in Hin.
Qed.

(** The tokens at which the loop does not stop hold no line feed: a line
    feed is always lexed as a [break], or inside a [tag]. *)
Lemma lexicon_no_newline :
  Forall (fun e => is_terminator e.2 = false → excludes 10 e.1 = true) LEXICON.
Proof.
  unfold LEXICON.
  repeat (apply List.Forall_cons;
          [cbn [snd fst is_terminator]; intros Ht; first [discriminate Ht | vm_compute; reflexivity]|]).
  apply List.Forall_nil.
Qed.

Lemma lexed_no_newline tok :
  lexed tok → is_terminator tok.1 = false → 10%N ∉ tok.2.
Proof.
  intros (r & rest & Hin & Hlang) Ht.
  pose proof lexicon_no_newline as Hall. rewrite Forall_forall in Hall.
  specialize (Hall _ Hin Ht). by eapply lang_excludes.
Qed.

(** *** The loop of [read_doi] *)

(** The loop consumes a prefix of the stream, none of whose tokens is a
    terminator, and appends the texts of that prefix to the buffer. *)
Lemma read_doi_loop_spec tokens : ∀ depth doi_buffer,
  ∃ consumed,
    tokens = consumed ++ (read_doi_loop depth doi_buffer tokens).2
    ∧ (read_doi_loop depth doi_buffer tokens).1.2 = doi_buffer ++ map snd consumed
    ∧ Forall (fun tok => is_terminator tok.1 = false) consumed.
Proof.
  induction tokens as [|[name m] tokens IH]; intros depth doi_buffer.
  - exists []. simpl. by rewrite app_nil_r.
  - cbn [read_doi_loop]. destruct (is_terminator name) eqn:Ht.
    { exists []. simpl. by rewrite app_nil_r. }
    assert (∀ d, ∃ consumed,
      (name, m) :: tokens
        = consumed ++ (read_doi_loop d (doi_buffer ++ [m]) tokens).2
      ∧ (read_doi_loop d (doi_buffer ++ [m]) tokens).1.2
        = doi_buffer ++ map snd consumed
      ∧ Forall (fun tok => is_terminator tok.1 = false) consumed) as Hgo.
    { intros d. destruct (IH d (doi_buffer ++ [m])) as (consumed & Htok & Hbuf & Hall).
      exists ((name, m) :: consumed). split; [simpl; by f_equal|].
      split; [by rewrite Hbuf, <- app_assoc|]. by constructor. }
    assert (∀ d : gmap string Z, ∃ consumed : list token,
      (name, m) :: tokens = consumed ++ (d, doi_buffer, (name, m) :: tokens).2
      ∧ (d, doi_buffer, (name, m) :: tokens).1.2 = doi_buffer ++ map snd consumed
      ∧ Forall (fun tok => is_terminator tok.1 = false) consumed) as Hstop.
    { intros d. exists []. simpl. by rewrite app_nil_r. }
    destruct name; try apply Hgo; try discriminate Ht.
    + destruct (0 <? depth_get depth "bracket")%Z; [apply Hgo|apply Hstop].
    + destruct (0 <? depth_get depth "curly")%Z; [apply Hgo|apply Hstop].
Qed.

Lemma read_doi_eq match_ tokens :
  read_doi ((doi_start, match_) :: tokens)
  = inr (Common.mkIdentifier "doi"
           (strip_punctuation_at_end (accumulated match_ tokens)),
         left_over match_ tokens).
Proof.
  unfold read_doi, accumulated, left_over.
  destruct (decide (doi_start = doi_start)); [|done].
  destruct (read_doi_loop ∅ [match_] tokens) as [[d buf] rest].
  by rewrite sub_punctuation_at_end.
Qed.

(** The accumulated text starts with the text of the first token. *)
Lemma accumulated_prefix match_ tokens :
  ∃ more, accumulated match_ tokens = match_ ++ more.
Proof.
  unfold accumulated.
  destruct (read_doi_loop_spec tokens ∅ [match_]) as (consumed & _ & -> & _).
  exists (concat (map snd consumed)). simpl. done.
Qed.

(** On the tokens of the lexer the accumulated text holds no line feed. *)
Lemma accumulated_no_newline match_ tokens :
  Forall lexed ((doi_start, match_) :: tokens) →
  10%N ∉ accumulated match_ tokens.
Proof.
  intros Hall. unfold accumulated.
  destruct (read_doi_loop_spec tokens ∅ [match_]) as (consumed & Htok & -> & Hnt).
  apply Forall_cons in Hall as [Hfirst Hall].
  rewrite Htok in Hall. apply Forall_app in Hall as [Hcons _].
  change ([match_] ++ map snd consumed) with (map snd ((doi_start, match_) :: consumed)).
  assert (Forall (fun tok : token => 10%N ∉ tok.2) ((doi_start, match_) :: consumed)) as Hno.
  { constructor; [by apply lexed_no_newline|].
    rewrite Forall_forall in Hcons, Hnt |- *. intros tok Hin.
    apply lexed_no_newline; auto. }
  clear -Hno. induction Hno as [|tok l Htok _ IH]; simpl.
  - apply not_elem_of_nil.
  - rewrite elem_of_app. tauto.
Qed.

(** A text whose last character is outside the set, and no line feed, is
    left as it is. *)
Lemma strip_fixed s c :
  last s = Some c → is_end_punct c = false → c ≠ 10%N →
  strip_punctuation_at_end s = s.
Proof.
  intros Hlast Hc Hnl.
  destruct (strip_trailing_run s) as (run & Hs & Hrun & _).
  { rewrite Hlast. congruence. }
  destruct (decide (run = [])) as [->|Hne].
  - by rewrite app_nil_r in Hs.
  - exfalso. apply last_is_Some in Hne as [x Hx].
    assert (last s = Some x) as Hsx.
    { rewrite Hs. rewrite last_app, Hx. done. }
    rewrite Hlast in Hsx. injection Hsx as ->.
    apply last_Some_elem_of in Hx. rewrite Forall_forall in Hrun.
    specialize (Hrun _ Hx). congruence.
Qed.

Lemma doi_start_last match_ rest :
  lang DOI_START_pattern match_ rest → last match_ = Some 47%N.
Proof.
  intros (ds & -> & _)%lang_doi_start.
  rewrite !app_assoc. apply last_snoc.
Qed.

Lemma lexed_doi_start match_ :
  lexed (doi_start, match_) → ∃ rest, lang DOI_START_pattern match_ rest.
Proof.
  intros (r & rest & Hin & Hlang). apply lexicon_doi_start in Hin as ->. eauto.
Qed.

Lemma tokenize_search_lexed text start :
  Forall lexed (tokenize_search text start).
Proof. eapply Lexes_lexed, tokenize_search_Lexes. Qed.

Lemma tokenize_finditer_lexed text : Forall lexed (tokenize_finditer text).
Proof. eapply Lexes_lexed, tokenize_finditer_Lexes. Qed.

Lemma depth_get_empty key : depth_get ∅ key = 0%Z.
Proof. unfold depth_get. by rewrite lookup_empty. Qed.

Lemma id_nonempty match_ rest tokens :
  lang DOI_START_pattern match_ rest →
  ∃ more, strip_punctuation_at_end (accumulated match_ tokens) = match_ ++ more.
Proof.
  intros (ds & -> & _)%lang_doi_start.
  destruct (accumulated_prefix (text_of "10." ++ ds ++ [47%N]) tokens) as [more ->].
  destruct (strip_keeps_prefix (text_of "10." ++ ds) 47%N more) as [b' Hb']; [done..|].
  exists b'. rewrite <- !app_assoc in *. simpl in *. done.
Qed.

End ReadDoi.

(** C3 (depth-tracked close markers).  While [read_doi] accumulates, a
    [close_bracket] (a [close_curly]) token met with the bracket (curly)
    counter above zero is consumed, its text appended to the buffer and the
    counter decremented, and the loop goes on; met with the counter at
    zero, the loop stops there: the buffer is as it was and the token is
    still the first of the stream.  The tokens of [10.1000/ab[c]d] give the
    id [10.1000/ab[c]d], and those of [10.1000/abc]] give the id
    [10.1000/abc], the closing bracket being left in the stream. *)
Theorem read_doi_close_markers `{UnicodeTables} :
  (∀ depth doi_buffer m tokens, (0 < depth_get depth "bracket")%Z →
     read_doi_loop depth doi_buffer ((close_bracket, m) :: tokens)
     = read_doi_loop (<["bracket" := (depth_get depth "bracket" - 1)%Z]> depth)
         (doi_buffer ++ [m]) tokens)
  ∧ (∀ depth doi_buffer m tokens, (depth_get depth "bracket" ≤ 0)%Z →
     ∃ depth', read_doi_loop depth doi_buffer ((close_bracket, m) :: tokens)
               = (depth', doi_buffer, (close_bracket, m) :: tokens)
               ∧ ∀ key, depth_get depth' key = depth_get depth key)
  ∧ (∀ depth doi_buffer m tokens, (0 < depth_get depth "curly")%Z →
     read_doi_loop depth doi_buffer ((close_curly, m) :: tokens)
     = read_doi_loop (<["curly" := (depth_get depth "curly" - 1)%Z]> depth)
         (doi_buffer ++ [m]) tokens)
  ∧ (∀ depth doi_buffer m tokens, (depth_get depth "curly" ≤ 0)%Z →
     ∃ depth', read_doi_loop depth doi_buffer ((close_curly, m) :: tokens)
               = (depth', doi_buffer, (close_curly, m) :: tokens)
               ∧ ∀ key, depth_get depth' key = depth_get depth key)
  ∧ read_doi (tokenize_finditer (text_of "10.1000/ab[c]d"))
    = inr (Common.mkIdentifier "doi" (text_of "10.1000/ab[c]d"), [])
  ∧ read_doi (tokenize_search (text_of "10.1000/ab[c]d") 0)
    = inr (Common.mkIdentifier "doi" (text_of "10.1000/ab[c]d"), [])
  ∧ read_doi (tokenize_finditer (text_of "10.1000/abc]"))
    = inr (Common.mkIdentifier "doi" (text_of "10.1000/abc"),
           [(close_bracket, text_of "]")])
  ∧ read_doi (tokenize_search (text_of "10.1000/abc]") 0)
    = inr (Common.mkIdentifier "doi" (text_of "10.1000/abc"),
           [(close_bracket, text_of "]")]).
Proof.
  assert (∀ depth key, (depth_get depth key ≤ 0)%Z →
            ∀ key', depth_get (depth_touch depth key) key' = depth_get depth key')
    as Htouch.
  { intros depth key _ key'. unfold depth_touch, depth_get.
    destruct (decide (key = key')) as [->|Hne].
    - by rewrite lookup_insert_eq.
    - by rewrite lookup_insert_ne. }
  split; [|split; [|split; [|split; [|split; [|split; [|split]]]]]].
  - intros depth doi_buffer m tokens Hd. cbn [read_doi_loop is_terminator].
    apply Z.ltb_lt in Hd. rewrite Hd. unfold depth_add.
    by replace (depth_get depth "bracket" + -1)%Z with (depth_get depth "bracket" - 1)%Z by lia.
  - intros depth doi_buffer m tokens Hd. cbn [read_doi_loop is_terminator].
    apply Z.ltb_ge in Hd. rewrite Hd. eexists. split; [done|]. apply Htouch. by apply Z.ltb_ge.
  - intros depth doi_buffer m tokens Hd. cbn [read_doi_loop is_terminator].
    apply Z.ltb_lt in Hd. rewrite Hd. unfold depth_add.
    by replace (depth_get depth "curly" + -1)%Z with (depth_get depth "curly" - 1)%Z by lia.
  - intros depth doi_buffer m tokens Hd. cbn [read_doi_loop is_terminator].
    apply Z.ltb_ge in Hd. rewrite Hd. eexists. split; [done|]. apply Htouch. by apply Z.ltb_ge.
  - vm_compute. reflexivity.
  - vm_compute. reflexivity.
  - vm_compute. reflexivity.
  - vm_compute. reflexivity.
Qed.

Lemma read_doi_close_markers_witness :
  (0 < depth_get {["bracket"%string := 1%Z]} "bracket")%Z
  ∧ read_doi_loop {["bracket"%string := 1%Z]} [text_of "10.1000/a[b"]
      [(close_bracket, text_of "]")]
    = ({["bracket"%string := 0%Z]}, [text_of "10.1000/a[b"; text_of "]"], []).
Proof.
  assert (0 < depth_get {["bracket"%string := 1%Z]} "bracket")%Z as Hd
    by (vm_compute; reflexivity).
  split; [exact Hd|].
  rewrite (proj1 (@read_doi_close_markers ascii_tables) _ _ _ _ Hd).
  vm_compute. reflexivity.
Defined.

(** C6 (trailing punctuation).  When the accumulation has ended,
    [read_doi] returns the accumulated text without its trailing run of
    characters of the set [.,!]: the run is maximal (what is returned does
    not end in a character of the set) and nothing else is removed.  This
    holds for every token stream whose accumulated text does not end in a
    line feed, and so for the tokens of every text, from every offset
    ([tokenize_search]) or token ([tokenize_finditer]) at which the lexer
    finds an identifier start, since the tokens that are accumulated hold
    no line feed.  The tokens of [10.1000/xyz123.] give
    the id [10.1000/xyz123]. *)
Theorem read_doi_strips_trailing_punctuation `{UnicodeTables} :
  (∀ match_ tokens,
     last (accumulated match_ tokens) ≠ Some 10%N →
     ∃ id_, read_doi ((doi_start, match_) :: tokens)
            = inr (Common.mkIdentifier "doi" id_, left_over match_ tokens)
            ∧ strips_trailing_run (accumulated match_ tokens) id_)
  ∧ (∀ text start match_ tokens,
     tokenize_search text start = (doi_start, match_) :: tokens →
     ∃ id_, read_doi (tokenize_search text start)
            = inr (Common.mkIdentifier "doi" id_, left_over match_ tokens)
            ∧ strips_trailing_run (accumulated match_ tokens) id_)
  ∧ (∀ text before match_ tokens,
     tokenize_finditer text = before ++ (doi_start, match_) :: tokens →
     ∃ id_, read_doi ((doi_start, match_) :: tokens)
            = inr (Common.mkIdentifier "doi" id_, left_over match_ tokens)
            ∧ strips_trailing_run (accumulated match_ tokens) id_)
  ∧ read_doi (tokenize_finditer (text_of "10.1000/xyz123."))
    = inr (Common.mkIdentifier "doi" (text_of "10.1000/xyz123"), [])
  ∧ read_doi (tokenize_search (text_of "10.1000/xyz123.") 0)
    = inr (Common.mkIdentifier "doi" (text_of "10.1000/xyz123"), []).
Proof.
  assert (∀ match_ tokens,
     last (accumulated match_ tokens) ≠ Some 10%N →
     ∃ id_, read_doi ((doi_start, match_) :: tokens)
            = inr (Common.mkIdentifier "doi" id_, left_over match_ tokens)
            ∧ strips_trailing_run (accumulated match_ tokens) id_) as Hgen.
  { intros match_ tokens Hlast. eexists. split; [apply read_doi_eq|].
    by apply strip_trailing_run. }
  split; [exact Hgen|]. split; [|split; [|split]].
  - intros text start match_ tokens Htok. rewrite Htok. apply Hgen.
    pose proof (tokenize_search_lexed text start) as Hlex. rewrite Htok in Hlex.
    intros Hlast%last_Some_elem_of. by apply accumulated_no_newline in Hlast.
  - intros text before match_ tokens Htok. apply Hgen.
    pose proof (tokenize_finditer_lexed text) as Hlex. rewrite Htok in Hlex.
    apply Forall_app in Hlex as [_ Hlex].
    intros Hlast%last_Some_elem_of. by apply accumulated_no_newline in Hlast.
  - vm_compute. reflexivity.
  - vm_compute. reflexivity.
Qed.

Lemma read_doi_strips_trailing_punctuation_witness :
  @tokenize_search ascii_tables (text_of "see 10.1000/xyz123., and") 4
    = (doi_start, text_of "10.1000/") :: [(word, text_of "xyz123"); (punct, text_of ".");
         (punct, text_of ","); (whitespace, text_of " "); (word, text_of "and")]
  ∧ ∃ id_, read_doi (@tokenize_search ascii_tables (text_of "see 10.1000/xyz123., and") 4)
           = inr (Common.mkIdentifier "doi" id_,
                  left_over (text_of "10.1000/")
                    [(word, text_of "xyz123"); (punct, text_of ".");
                     (punct, text_of ","); (whitespace, text_of " "); (word, text_of "and")])
           ∧ strips_trailing_run
               (accumulated (text_of "10.1000/")
                  [(word, text_of "xyz123"); (punct, text_of ".");
                   (punct, text_of ","); (whitespace, text_of " "); (word, text_of "and")])
               id_.
Proof.
  assert (@tokenize_search ascii_tables (text_of "see 10.1000/xyz123., and") 4
    = (doi_start, text_of "10.1000/") :: [(word, text_of "xyz123"); (punct, text_of ".");
         (punct, text_of ","); (whitespace, text_of " "); (word, text_of "and")]) as Htok
    by (vm_compute; reflexivity).
  split; [exact Htok|].
  exact (proj1 (proj2 (@read_doi_strips_trailing_punctuation ascii_tables)) _ _ _ _ Htok).
Defined.

(** The id starts with the text of the identifier-start token, so it is
    not empty. *)
Lemma read_doi_id_nonempty_aux :
  (∀ match_ rest tokens,
     lang DOI_START_pattern match_ rest →
     ∃ identifier more,
       read_doi ((doi_start, match_) :: tokens)
       = inr (identifier, left_over match_ tokens)
       ∧ Common.id identifier = match_ ++ more
       ∧ last match_ = Some 47%N
       ∧ 0 < length (Common.id identifier)).
Proof.
  intros match_ rest tokens Hm.
  destruct (id_nonempty _ _ tokens Hm) as [more Hid].
  eexists _, more. split; [apply read_doi_eq|]. cbn [Common.id].
  split; [done|]. split; [by eapply doi_start_last|].
  rewrite Hid, length_app. apply lang_min_len in Hm.
  change (min_len DOI_START_pattern) with 8 in Hm. lia.
Qed.

(** C8 (the id is never empty).  When the next token of the stream is an
    identifier-start token, that is a [doi_start] token whose text is a
    match of [DOI_START_RE], [read_doi] returns an identifier whose id is
    not empty: the id starts with the whole text of that token, which ends
    in [/], so the removal of trailing punctuation cannot reach into it.
    This holds whatever tokens follow, and so for the tokens of every text
    from every offset ([tokenize_search]) or token ([tokenize_finditer]) at
    which the lexer finds an identifier start. *)
Theorem read_doi_id_nonempty `{UnicodeTables} :
  (∀ match_ rest tokens,
     lang DOI_START_pattern match_ rest →
     ∃ identifier more,
       read_doi ((doi_start, match_) :: tokens)
       = inr (identifier, left_over match_ tokens)
       ∧ Common.id identifier = match_ ++ more
       ∧ last match_ = Some 47%N
       ∧ 0 < length (Common.id identifier))
  ∧ (∀ text start match_ tokens,
     tokenize_search text start = (doi_start, match_) :: tokens →
     ∃ identifier more,
       read_doi (tokenize_search text start)
       = inr (identifier, left_over match_ tokens)
       ∧ Common.id identifier = match_ ++ more
       ∧ last match_ = Some 47%N
       ∧ 0 < length (Common.id identifier))
  ∧ (∀ text before match_ tokens,
     tokenize_finditer text = before ++ (doi_start, match_) :: tokens →
     ∃ identifier more,
       read_doi ((doi_start, match_) :: tokens)
       = inr (identifier, left_over match_ tokens)
       ∧ Common.id identifier = match_ ++ more
       ∧ last match_ = Some 47%N
       ∧ 0 < length (Common.id identifier)).
Proof.
  assert (∀ match_ rest tokens,
     lang DOI_START_pattern match_ rest →
     ∃ identifier more,
       read_doi ((doi_start, match_) :: tokens)
       = inr (identifier, left_over match_ tokens)
       ∧ Common.id identifier = match_ ++ more
       ∧ last match_ = Some 47%N
       ∧ 0 < length (Common.id identifier)) as Hgen
    by exact read_doi_id_nonempty_aux.
  split; [exact Hgen|]. split.
  - intros text start match_ tokens Htok. rewrite Htok.
    pose proof (tokenize_search_lexed text start) as Hlex. rewrite Htok in Hlex.
    apply Forall_cons in Hlex as [[rest Hm]%lexed_doi_start _]. by eapply Hgen.
  - intros text before match_ tokens Htok.
    pose proof (tokenize_finditer_lexed text) as Hlex. rewrite Htok in Hlex.
    apply Forall_app in Hlex as [_ Hlex].
    apply Forall_cons in Hlex as [[rest Hm]%lexed_doi_start _]. by eapply Hgen.
Qed.

Lemma read_doi_id_nonempty_witness :
  lang (@DOI_START_pattern) (text_of "10.1000/") (text_of "...")
  ∧ ∃ identifier more,
      read_doi
        [(doi_start, text_of "10.1000/"); (punct, text_of "."); (punct, text_of ".");
         (punct, text_of ".")]
      = inr (identifier,
             left_over (text_of "10.1000/")
               [(punct, text_of "."); (punct, text_of "."); (punct, text_of ".")])
      ∧ Common.id identifier = text_of "10.1000/" ++ more
      ∧ last (text_of "10.1000/") = Some 47%N
      ∧ 0 < length (Common.id identifier).
Proof.
  assert (lang (@DOI_START_pattern) (text_of "10.1000/") (text_of "...")) as Hm.
  { exists (text_of "10."), (text_of "1000/"). split; [reflexivity|]. split.
    - exists (text_of "1"), (text_of "0."). split; [reflexivity|]. split; [by exists 49%N|].
      exists (text_of "0"), (text_of "."). split; [reflexivity|]. split; [by exists 48%N|].
      exists (text_of "."), []. split; [reflexivity|]. split; [by exists 46%N|reflexivity].
    - exists (text_of "1000"), (text_of "/"). split; [reflexivity|]. split.
      + exists (text_of "1"), (text_of "000"). split; [reflexivity|]. split; [by exists 49%N|].
        exists (text_of "0"), (text_of "00"). split; [reflexivity|]. split; [by exists 48%N|].
        exists (text_of "0"), (text_of "0"). split; [reflexivity|]. split; [by exists 48%N|].
        exists (text_of "0"), []. split; [reflexivity|]. split; [by exists 48%N|reflexivity].
      + exists [], (text_of "/"). split; [reflexivity|]. split; [constructor|by exists 47%N]. }
  split; [exact Hm|].
  exact (proj1 (@read_doi_id_nonempty ascii_tables) _ _ _ Hm).
Defined.

(** C9 (an identifier start followed by a terminator).  When the
    identifier-start token is followed at once by a terminator token (or by
    a closer without opener, or by the end of the stream), [read_doi] does
    not raise: it returns the identifier whose id is the text of the
    identifier-start token, no more and no less, and the stream it leaves
    still begins with the terminator. *)
Theorem read_doi_shortest (match_ rest : list N) (tokens : list token) :
  lang DOI_START_pattern match_ rest →
  stops_at_once tokens →
  read_doi ((doi_start, match_) :: tokens)
  = inr (Common.mkIdentifier "doi" match_, tokens).
Proof.
  intros Hm Hstop. rewrite read_doi_eq.
  assert ((read_doi_loop ∅ [match_] tokens).1.2 = [match_]
          ∧ (read_doi_loop ∅ [match_] tokens).2 = tokens) as [Hbuf Hrest].
  { destruct tokens as [|[name m] tokens]; [done|]. cbn [read_doi_loop].
    destruct Hstop as [Ht|[Hn|Hn]]; try subst name.
    - by rewrite Ht.
    - cbn [is_terminator]. by rewrite depth_get_empty.
    - cbn [is_terminator]. by rewrite depth_get_empty. }
  unfold accumulated, left_over. rewrite Hbuf, Hrest. cbn [concat].
  rewrite app_nil_r.
  rewrite (strip_fixed match_ 47%N); [done|by eapply doi_start_last|done..].
Qed.

Lemma read_doi_shortest_witness :
  ∃ rest tokens,
    tokens = [(whitespace, text_of " "); (word, text_of "x")]
    ∧ lang (@DOI_START_pattern) (text_of "10.12345/") rest
    ∧ stops_at_once tokens
    ∧ read_doi ((doi_start, text_of "10.12345/") :: tokens)
      = inr (Common.mkIdentifier "doi" (text_of "10.12345/"), tokens).
Proof.
  assert (lang (@DOI_START_pattern) (text_of "10.12345/") (text_of " x")) as Hm.
  { exists (text_of "10."), (text_of "12345/"). split; [reflexivity|]. split.
    - exists (text_of "1"), (text_of "0."). split; [reflexivity|]. split; [by exists 49%N|].
      exists (text_of "0"), (text_of "."). split; [reflexivity|]. split; [by exists 48%N|].
      exists (text_of "."), []. split; [reflexivity|]. split; [by exists 46%N|reflexivity].
    - exists (text_of "1234"), (text_of "5/"). split; [reflexivity|]. split.
      + exists (text_of "1"), (text_of "234"). split; [reflexivity|]. split; [by exists 49%N|].
        exists (text_of "2"), (text_of "34"). split; [reflexivity|]. split; [by exists 50%N|].
        exists (text_of "3"), (text_of "4"). split; [reflexivity|]. split; [by exists 51%N|].
        exists (text_of "4"), []. split; [reflexivity|]. split; [by exists 52%N|reflexivity].
      + exists (text_of "5"), (text_of "/"). split; [reflexivity|].
        split; [repeat constructor|by exists 47%N]. }
  assert (stops_at_once [(whitespace, text_of " "); (word, text_of "x")]) as Hstop
    by (left; reflexivity).
  exists (text_of " x"), [(whitespace, text_of " "); (word, text_of "x")].
  split; [reflexivity|]. split; [exact Hm|]. split; [exact Hstop|].
  exact (read_doi_shortest _ _ _ Hm Hstop).
Defined.

Lemma depth_get_add depth key d key' :
  depth_get (depth_add depth key d) key'
  = if decide (key = key') then (depth_get depth key + d)%Z else depth_get depth key'.
Proof.
  unfold depth_add, depth_get at 1. destruct (decide (key = key')) as [->|Hne].
  - by rewrite lookup_insert_eq.
  - by rewrite lookup_insert_ne.
Qed.

Lemma depth_get_touch depth key key' :
  depth_get (depth_touch depth key) key' = depth_get depth key'.
Proof.
  unfold depth_touch, depth_get at 1. destruct (decide (key = key')) as [->|Hne].
  - by rewrite lookup_insert_eq.
  - by rewrite lookup_insert_ne.
Qed.

(** X2 (the depth counters).  The counters of [read_doi] are never
    negative: from counters that are not negative, as the empty ones with
    which [read_doi] starts, the loop is left with counters that are not
    negative, whatever the tokens. *)
Theorem read_doi_depth_nonnegative (tokens : list token) :
  ∀ depth doi_buffer,
    (∀ key, (0 ≤ depth_get depth key)%Z) →
    ∀ key, (0 ≤ depth_get (read_doi_loop depth doi_buffer tokens).1.1 key)%Z.
Proof.
  induction tokens as [|[name m] tokens IH]; intros depth doi_buffer Hd key; [apply Hd|].
  cbn [read_doi_loop]. destruct (is_terminator name); [apply Hd|].
  assert (∀ k d, (0 ≤ d)%Z → ∀ key', (0 ≤ depth_get (depth_add depth k d) key')%Z) as Hup.
  { intros k d Hle key'. rewrite depth_get_add. pose proof (Hd k).
    destruct (decide (k = key')); [lia|apply Hd]. }
  destruct name; try (apply IH; first [exact Hd | by apply Hup]).
  - destruct (0 <? depth_get depth "bracket")%Z eqn:Hlt.
    + apply IH. intros key'. rewrite depth_get_add. apply Z.ltb_lt in Hlt.
      destruct (decide ("bracket"%string = key')); [lia|apply Hd].
    + cbn [fst]. rewrite depth_get_touch. apply Hd.
  - destruct (0 <? depth_get depth "curly")%Z eqn:Hlt.
    + apply IH. intros key'. rewrite depth_get_add. apply Z.ltb_lt in Hlt.
      destruct (decide ("curly"%string = key')); [lia|apply Hd].
    + cbn [fst]. rewrite depth_get_touch. apply Hd.
Qed.

Lemma read_doi_depth_nonnegative_witness :
  (∀ key, (0 ≤ depth_get ∅ key)%Z)
  ∧ ∀ key, (0 ≤ depth_get
              (read_doi_loop ∅ [text_of "10.1000/"]
                 [(open_bracket, text_of "["); (close_bracket, text_of "]");
                  (close_bracket, text_of "]")]).1.1 key)%Z.
Proof.
  assert (∀ key, (0 ≤ depth_get ∅ key)%Z) as Hd.
  { intros key. unfold depth_get. rewrite lookup_empty. simpl. lia. }
  split; [exact Hd|].
  exact (read_doi_depth_nonnegative _ ∅ _ Hd).
Defined.

End ReadDoiFacts.

(** ** [extract_search] *)

Module ExtractFacts.
Import Regex RegexFacts Doi LexerFacts ReadDoiFacts.

Section Extract.
Context `{UnicodeTables}.

Lemma search_from_sound {A} (re : compiled A) s : ∀ pos m,
  search_from re s pos false = Some m →
  ∃ i name n, m = mkMatch name (pos + i) (pos + i + n)
              ∧ match_here re (drop i s) false = Some (name, n).
Proof.
  induction s as [|c s IH]; intros pos m; cbn [search_from].
  - destruct (match_here re [] false) as [[name n]|] eqn:Hm; [|done].
    intros [= <-]. exists 0, name, n. by rewrite Nat.add_0_r.
  - destruct (match_here re (c :: s) false) as [[name n]|] eqn:Hm.
    + intros [= <-]. exists 0, name, n. by rewrite Nat.add_0_r.
    + intros (i & name & n & -> & Hi)%IH. exists (S i), name, n.
      split; [f_equal; lia|done].
Qed.

Lemma finditer_doi_matches fuel : ∀ text pos,
  Forall (doi_match text) (finditer_from fuel DOI_START_RE text pos false).
Proof.
  induction fuel as [|fuel IH]; intros text pos; cbn [finditer_from]; [constructor|].
  destruct (search DOI_START_RE text pos false) as [m|] eqn:Hs; [|constructor].
  unfold search in Hs. apply search_from_sound in Hs as (i & [] & n & -> & Hm).
  cbn [m_end m_start]. rewrite drop_drop in Hm.
  apply match_here_sound in Hm as (r & Hin & Hr).
  apply list_elem_of_singleton in Hin as [= ->].
  destruct (exec_accept _ _ _ _ Hr) as (_ & Hmin & _).
  change (min_len DOI_START_pattern) with 8 in Hmin.
  replace (pos + i + n =? pos + i) with false by (symmetry; apply Nat.eqb_neq; lia).
  constructor; [|apply IH]. exists n. done.
Qed.

(** Where [DOI_START_RE] matches, the first token of [tokenize_search] is
    the [doi_start] token of that match. *)
Lemma tokenize_search_doi_start text begin_pos n :
  exec DOI_START_pattern (drop begin_pos text) 0 (accept false) = Some n →
  ∃ match_ tokens rest,
    tokenize_search text begin_pos = (doi_start, match_) :: tokens
    ∧ lang DOI_START_pattern match_ rest.
Proof.
  intros Hr. pose proof (tokenize_search_Lexes text begin_pos) as HL.
  destruct (exec_accept _ _ _ _ Hr) as (Hlen & Hmin & Hlang).
  change (min_len DOI_START_pattern) with 8 in Hmin.
  inversion HL as [Hnil|c s name n' toks Hm Htl Hcons].
  - rewrite <- Hnil in Hlen. simpl in Hlen. lia.
  - rewrite <- Hcons in Hr.
    unfold _lexicon_re, compile_lexicon, LEXICON in Hm. cbn [match_here] in Hm.
    rewrite Hr in Hm. injection Hm as <- <-.
    rewrite Hcons. eauto.
Qed.

Lemma ordered_after_weaken a b spans :
  b ≤ a → ordered_after a spans → ordered_after b spans.
Proof. destruct spans as [|sp spans]; simpl; [done|]. intros ? (?&?&?). repeat split; [lia|done..]. Qed.

(** The loop invariant of [extract_search]: no exception, and the spans
    lie one after the other behind [last_end]. *)
Lemma extract_search_loop_ordered text matches : ∀ last_end,
  Forall (doi_match text) matches →
  ∃ results, extract_search_loop text matches last_end = (results, None)
             ∧ ordered_after last_end (map Common.span results).
Proof.
  induction matches as [|m matches IH]; intros last_end Hall.
  - exists []. done.
  - apply Forall_cons in Hall as [(n & Hr & Hend) Hall]. cbn [extract_search_loop].
    destruct (last_end <? m_start m) eqn:Hlt.
    + apply Nat.ltb_lt in Hlt.
      destruct (tokenize_search_doi_start _ _ _ Hr) as (match_ & tokens & rest & -> & Hm).
      destruct (read_doi_id_nonempty_aux _ _ tokens Hm)
        as (identifier & more & -> & _ & _ & Hlen).
      destruct (IH (m_start m + length (Common.id identifier)) Hall) as (results & -> & Hord).
      eexists. split; [done|]. simpl. repeat split; [done|lia|done].
    + apply Nat.ltb_ge in Hlt.
      destruct (IH (Nat.max (m_end m) last_end) Hall) as (results & -> & Hord).
      exists results. split; [done|]. eapply ordered_after_weaken; [|done]. lia.
Qed.

Lemma ordered_after_lookup spans : ∀ a j sp,
  ordered_after a spans → spans !! j = Some sp →
  a < Common.span_start sp ∧ Common.span_start sp < Common.span_end sp.
Proof.
  induction spans as [|sp0 spans IH]; intros a j sp Hord Hj; [done|].
  destruct Hord as (H1 & H2 & Hord). destruct j as [|j]; simpl in Hj.
  - injection Hj as <-. done.
  - destruct (IH _ _ _ Hord Hj). lia.
Qed.

Lemma ordered_after_pairs spans : ∀ a i j s1 s2,
  ordered_after a spans → i < j →
  spans !! i = Some s1 → spans !! j = Some s2 →
  Common.span_end s1 < Common.span_start s2.
Proof.
  induction spans as [|sp0 spans IH]; intros a i j s1 s2 Hord Hij Hi Hj; [done|].
  destruct Hord as (H1 & H2 & Hord). destruct j as [|j]; [lia|].
  destruct i as [|i]; simpl in Hi, Hj.
  - injection Hi as <-. by destruct (ordered_after_lookup _ _ _ _ Hord Hj).
  - eapply IH; [done| |done..]. lia.
Qed.

Lemma extract_search_ordered text :
  ∃ results, extract_search text = (results, None)
             ∧ ordered_after 0 (map Common.span results).
Proof. apply extract_search_loop_ordered, finditer_doi_matches. Qed.

End Extract.

(** C2 (non-overlap).  For every text, [extract_search] ends without an
    exception, every span it yields is not empty, and of any two spans it
    yields the earlier one ends at or before the start of the later one,
    which starts further right: the spans are in ascending order and do not
    overlap.  On a text with two identifier starts, the first of them
    behind offset 0, it yields the two spans in that order. *)
Theorem extract_search_non_overlapping `{UnicodeTables} :
  (∀ text, ∃ results,
     extract_search text = (results, None)
     ∧ (∀ i r, results !! i = Some r →
          Common.span_start (Common.span r) < Common.span_end (Common.span r))
     ∧ (∀ i j r1 r2, i < j → results !! i = Some r1 → results !! j = Some r2 →
          Common.span_end (Common.span r1) ≤ Common.span_start (Common.span r2)
          ∧ Common.span_start (Common.span r1) < Common.span_start (Common.span r2)))
  ∧ extract_search (text_of "see 10.1000/a and 10.2000/b.")
    = ([Common.mkCaptureResult (Common.mkIdentifier "doi" (text_of "10.1000/a"))
          (Common.mkSpan 4 13);
        Common.mkCaptureResult (Common.mkIdentifier "doi" (text_of "10.2000/b"))
          (Common.mkSpan 18 27)], None).
Proof.
  split; [|vm_compute; reflexivity].
  intros text. destruct (extract_search_ordered text) as (results & Heq & Hord).
  exists results. split; [done|]. split.
  - intros i r Hi.
    assert (map Common.span results !! i = Some (Common.span r)) as Hi'
      by (by rewrite list_lookup_fmap, Hi).
    by destruct (ordered_after_lookup _ _ _ _ Hord Hi').
  - intros i j r1 r2 Hij Hi Hj.
    assert (map Common.span results !! i = Some (Common.span r1)) as Hi'
      by (by rewrite list_lookup_fmap, Hi).
    assert (map Common.span results !! j = Some (Common.span r2)) as Hj'
      by (by rewrite list_lookup_fmap, Hj).
    pose proof (ordered_after_pairs _ _ _ _ _ _ Hord Hij Hi' Hj').
    destruct (ordered_after_lookup _ _ _ _ Hord Hi'). lia.
Qed.

Lemma extract_search_non_overlapping_witness :
  ∃ r1 r2,
    (@extract_search ascii_tables (text_of "10.1/x 10.1000/a, 10.2000/b10.3000/c")).1 !! 0
      = Some r1
    ∧ (@extract_search ascii_tables (text_of "10.1/x 10.1000/a, 10.2000/b10.3000/c")).1 !! 1
      = Some r2
    ∧ Common.span r1 = Common.mkSpan 7 16
    ∧ Common.span r2 = Common.mkSpan 18 36
    ∧ Common.span_end (Common.span r1) ≤ Common.span_start (Common.span r2)
    ∧ Common.span_start (Common.span r1) < Common.span_start (Common.span r2).
Proof.
  destruct (proj1 (@extract_search_non_overlapping ascii_tables)
              (text_of "10.1/x 10.1000/a, 10.2000/b10.3000/c"))
    as (results & Heq & _ & Hord).
  assert (@extract_search ascii_tables (text_of "10.1/x 10.1000/a, 10.2000/b10.3000/c")
          = ([Common.mkCaptureResult (Common.mkIdentifier "doi" (text_of "10.1000/a"))
                (Common.mkSpan 7 16);
              Common.mkCaptureResult
                (Common.mkIdentifier "doi" (text_of "10.2000/b10.3000/c"))
                (Common.mkSpan 18 36)], None)) as Hval by (vm_compute; reflexivity).
  rewrite Hval in Heq. injection Heq as <-. rewrite Hval.
  eexists _, _. split; [reflexivity|]. split; [reflexivity|].
  split; [reflexivity|]. split; [reflexivity|].
  apply (Hord 0 1); [lia|reflexivity|reflexivity].
Defined.

(** C10 (what [extract_search] skips).  An identifier start is extracted
    only when it lies strictly behind [last_end], which starts at 0 and is
    moved on otherwise.  So for every text no span that is yielded starts
    at offset 0, and a span that is yielded starts strictly behind the end
    of the span yielded before it, never at that end.  An identifier at the
    very beginning of the text is skipped without an exception, and so is
    an identifier start that begins where the match before it ended. *)
Theorem extract_search_skips `{UnicodeTables} :
  (∀ text, ∃ results,
     extract_search text = (results, None)
     ∧ (∀ r, r ∈ results → 0 < Common.span_start (Common.span r))
     ∧ (∀ i r1 r2, results !! i = Some r1 → results !! S i = Some r2 →
          Common.span_end (Common.span r1) < Common.span_start (Common.span r2)))
  ∧ (∀ text match_ matches last_end,
       m_start match_ ≤ last_end →
       extract_search_loop text (match_ :: matches) last_end
       = extract_search_loop text matches (Nat.max (m_end match_) last_end))
  ∧ extract_search (text_of "10.1000/abc") = ([], None)
  ∧ extract_search (text_of " 10.1000/abc")
    = ([Common.mkCaptureResult (Common.mkIdentifier "doi" (text_of "10.1000/abc"))
          (Common.mkSpan 1 12)], None)
  ∧ extract_search (text_of "10.1000/10.2000/x") = ([], None).
Proof.
  split; [|split; [|split; [|split]]]; try (vm_compute; reflexivity).
  - intros text. destruct (extract_search_ordered text) as (results & Heq & Hord).
    exists results. split; [done|]. split.
    + intros r [i Hi]%list_elem_of_lookup.
      assert (map Common.span results !! i = Some (Common.span r)) as Hi'
        by (by rewrite list_lookup_fmap, Hi).
      destruct (ordered_after_lookup _ _ _ _ Hord Hi'). lia.
    + intros i r1 r2 Hi Hj.
      assert (map Common.span results !! i = Some (Common.span r1)) as Hi'
        by (by rewrite list_lookup_fmap, Hi).
      assert (map Common.span results !! S i = Some (Common.span r2)) as Hj'
        by (by rewrite list_lookup_fmap, Hj).
      eapply ordered_after_pairs; [done| |done..]. lia.
  - intros text match_ matches last_end Hle. cbn [extract_search_loop].
    apply Nat.ltb_ge in Hle. by rewrite Hle.
Qed.

Lemma extract_search_skips_witness :
  m_start (mkMatch tt 0 8) ≤ 0
  ∧ @extract_search_loop ascii_tables (text_of "10.1000/abc") [mkMatch tt 0 8] 0
    = @extract_search_loop ascii_tables (text_of "10.1000/abc") [] (Nat.max 8 0).
Proof.
  assert (m_start (mkMatch tt 0 8) ≤ 0) as Hle by (simpl; lia).
  split; [exact Hle|].
  exact (proj1 (proj2 (@extract_search_skips ascii_tables))
           (text_of "10.1000/abc") (mkMatch tt 0 8) [] 0 Hle).
Defined.

End ExtractFacts.

(** ** [functools.lru_cache] *)

Module FunctoolsFacts.
Import Functools.

Section LruCache.
Context {K V : Type} `{EqDecision K}.
Variable maxsize : nat.
Variable user_function : K -> exn + V.

Lemma cache_get_elem_of (c : list (K * V)) key result :
  cache_get c key = Some result → (key, result) ∈ c.
Proof.
  induction c as [|[k v] c IH]; simpl; [done|].
  destruct (decide (k = key)) as [->|Hne].
  - intros [= ->]. left.
  - intros ?. right. auto.
Qed.

Lemma cache_del_subseteq (c : list (K * V)) key e :
  e ∈ cache_del c key → e ∈ c.
Proof.
  induction c as [|[k v] c IH]; simpl; [done|].
  destruct (decide (k = key)).
  - intros ?. right. auto.
  - intros [->|?]%elem_of_cons; [left|right; auto].
Qed.

Lemma cache_del_length (c : list (K * V)) key :
  length (cache_del c key) ≤ length c.
Proof.
  induction c as [|[k v] c IH]; simpl; [done|].
  destruct (decide (k = key)); simpl; lia.
Qed.

Lemma cache_del_length_hit (c : list (K * V)) key result :
  cache_get c key = Some result → S (length (cache_del c key)) ≤ length c.
Proof.
  induction c as [|[k v] c IH]; simpl; [done|].
  destruct (decide (k = key)) as [->|Hne]; simpl.
  - intros _. pose proof (cache_del_length c key). lia.
  - intros Hg. specialize (IH Hg). lia.
Qed.

(** Memoization is transparent: on a coherent cache a call gives what the
    function gives, and it leaves a coherent cache that is no larger than
    [maxsize] if the cache was not. *)
Lemma lru_call_transparent (c : list (K * V)) key :
  coherent user_function c →
  (lru_call maxsize user_function c key).1 = user_function key
  ∧ coherent user_function (lru_call maxsize user_function c key).2
  ∧ (length c ≤ maxsize → length (lru_call maxsize user_function c key).2 ≤ maxsize).
Proof.
  intros Hc. unfold lru_call. destruct (cache_get c key) as [result|] eqn:Hg.
  - pose proof (cache_get_elem_of _ _ _ Hg) as Hin. simpl.
    split; [symmetry; by apply Hc|]. split.
    + intros k v [[= -> ->]|Hin']%elem_of_cons; [by apply Hc|].
      apply Hc. by eapply cache_del_subseteq.
    + intros Hlen. pose proof (cache_del_length_hit _ _ _ Hg). lia.
  - destruct (user_function key) as [e|result] eqn:Hf; simpl.
    + done.
    + split; [done|]. split.
      * intros k v Hin. apply subseteq_take in Hin.
        apply elem_of_cons in Hin as [[= -> ->]|Hin]; [done|by apply Hc].
      * intros _. rewrite length_take. lia.
Qed.

Lemma lru_calls_transparent keys : ∀ c : list (K * V),
  coherent user_function c →
  (lru_calls maxsize user_function c keys).1 = map user_function keys
  ∧ coherent user_function (lru_calls maxsize user_function c keys).2.
Proof.
  induction keys as [|key keys IH]; intros c Hc; simpl; [done|].
  destruct (lru_call_transparent c key Hc) as (Hr & Hc' & _).
  destruct (lru_call maxsize user_function c key) as [r c1]. simpl in Hr, Hc'.
  destruct (IH c1 Hc') as (Hrs & Hc'').
  destruct (lru_calls maxsize user_function c1 keys) as [rs c2]. simpl in *.
  by subst.
Qed.

Lemma coherent_nil : coherent user_function [].
Proof. intros k v Hin. by apply elem_of_nil in Hin. Qed.

End LruCache.
End FunctoolsFacts.

(** ** The classifier *)

Module ClassifierFacts.
Import Functools FunctoolsFacts Bibliography.

Section Classifier.
Context `{Collaborators}.

Lemma max_by_score_None l : max_by_score l = None ↔ l = [].
Proof.
  destruct l as [|x l]; simpl; [done|]. split; [|done].
  destruct (max_by_score l) as [y|]; [|done]. by destruct (x.2 <? y.2)%Z.
Qed.

(** An element reaches the cutoff exactly when the best score does. *)
Lemma best_score_cutoff section_name synonyms cutoff :
  (∃ synonym, synonym ∈ synonyms ∧ (cutoff ≤ scorer section_name synonym)%Z)
  ↔ ∃ best, best_score section_name synonyms = Some best ∧ (cutoff ≤ best)%Z.
Proof.
  induction synonyms as [|s synonyms IH]; simpl.
  - split; [intros (? & []%elem_of_nil & _)|intros (? & [=] & _)].
  - destruct (best_score section_name synonyms) as [b|] eqn:Hb.
    + split.
      * intros (syn & [->|Hin]%elem_of_cons & Hle).
        -- eexists. split; [done|]. lia.
        -- destruct (proj1 IH) as (best & [= <-] & Hle'); [eauto|].
           eexists. split; [done|]. lia.
      * intros (best & [= <-] & Hle).
        destruct (Z.max_spec (scorer section_name s) b) as [[_ Hm]|[_ Hm]];
          rewrite Hm in Hle.
        -- destruct (proj2 IH) as (syn & Hin & Hle'); [eauto|].
           exists syn. split; [by right|done].
        -- exists s. split; [left|done].
    + split.
      * intros (syn & [->|Hin]%elem_of_cons & Hle); [eauto|].
        destruct (proj1 IH) as (best & [=] & _). eauto.
      * intros (best & [= <-] & Hle). exists s. split; [left|done].
Qed.

Lemma extractOne_Some section_name synonyms cutoff :
  is_Some (extractOne section_name synonyms cutoff)
  ↔ ∃ synonym, synonym ∈ synonyms ∧ (cutoff ≤ scorer section_name synonym)%Z.
Proof.
  unfold extractOne, extractWithoutOrder.
  rewrite <- not_eq_None_Some, max_by_score_None. split.
  - intros Hne.
    destruct (filter _ _) as [|[choice sc] l] eqn:Hf; [done|].
    assert ((choice, sc) ∈ filter (λ cs : string * Z, (cutoff ≤ cs.2)%Z)
              (map (λ choice, (choice, scorer section_name choice)) synonyms)) as Hin
      by (rewrite Hf; left).
    apply list_elem_of_filter in Hin as [Hle Hin].
    apply list_elem_of_fmap in Hin as (syn & [= -> ->] & Hin). eauto.
  - intros (syn & Hin & Hle) Hnil.
    assert ((syn, scorer section_name syn) ∈ filter (λ cs : string * Z, (cutoff ≤ cs.2)%Z)
              (map (λ choice, (choice, scorer section_name choice)) synonyms)) as Hin'.
    { apply list_elem_of_filter. split; [done|].
      apply list_elem_of_fmap. eauto. }
    rewrite Hnil in Hin'. by apply elem_of_nil in Hin'.
Qed.

(** The cache of [is_bibliography] is transparent. *)
Lemma is_bibliography_transparent c w :
  coherent is_bibliography_of_call (cache w) →
  (is_bibliography c w).1 = is_bibliography_of_call c
  ∧ stats (is_bibliography c w).2 = stats w
  ∧ coherent is_bibliography_of_call (cache (is_bibliography c w).2)
  ∧ (length (cache w) ≤ 500 → length (cache (is_bibliography c w).2) ≤ 500).
Proof.
  intros Hc. unfold is_bibliography.
  destruct (lru_call_transparent 500 is_bibliography_of_call (cache w) c Hc)
    as (Hr & Hc' & Hlen).
  destruct (lru_call 500 is_bibliography_of_call (cache w) c) as [r c1].
  simpl in *. done.
Qed.

End Classifier.

(** C5 (the classifier).  For a language that has synonyms,
    [is_bibliography] is true exactly when the best score of the section
    name against every synonym of the language reaches the cutoff (with no
    synonym there is no best score and the answer is false); a language
    without an entry raises [KeyError].  The answer is a function of the
    arguments, the synonym table and the scorer alone, and the LRU cache of
    500 entries, keyed by the arguments as passed, changes no answer: on a
    cache that holds results of the function, a call through the cache
    gives what the body gives, leaves the statistics alone and leaves such
    a cache of 500 entries at most; from the empty cache, any sequence of
    calls gives the answers of the body. *)
Theorem is_bibliography_decision `{Collaborators} :
  (∀ section_name language score_cutoff synonyms,
     bibliography !! language = Some synonyms →
     ∃ b, is_bibliography_body section_name language score_cutoff = inr b
          ∧ (b = true ↔ ∃ best, best_score section_name synonyms = Some best
                                 ∧ (score_cutoff ≤ best)%Z))
  ∧ (∀ section_name language score_cutoff,
     bibliography !! language = None →
     is_bibliography_body section_name language score_cutoff = inl KeyError)
  ∧ (∀ c w,
     coherent is_bibliography_of_call (cache w) →
     (is_bibliography c w).1 = is_bibliography_of_call c
     ∧ stats (is_bibliography c w).2 = stats w
     ∧ coherent is_bibliography_of_call (cache (is_bibliography c w).2)
     ∧ (length (cache w) ≤ 500 → length (cache (is_bibliography c w).2) ≤ 500))
  ∧ (∀ calls,
     (lru_calls 500 is_bibliography_of_call [] calls).1
     = map is_bibliography_of_call calls).
Proof.
  split; [|split; [|split]].
  - intros section_name language score_cutoff synonyms Hl.
    unfold is_bibliography_body. rewrite Hl. eexists. split; [done|].
    rewrite <- best_score_cutoff, <- extractOne_Some.
    destruct (extractOne section_name synonyms score_cutoff) as [m|].
    + split; [intros _; eauto|done].
    + split; [done|]. intros Hs. by apply is_Some_None in Hs.
  - intros section_name language score_cutoff Hl.
    unfold is_bibliography_body. by rewrite Hl.
  - intros c w Hc. by apply is_bibliography_transparent.
  - intros calls. apply lru_calls_transparent, coherent_nil.
Qed.

Lemma is_bibliography_decision_witness :
  @bibliography example_collaborators !! "en"%string
    = Some ["References"; "Bibliography"]%string
  ∧ ∃ b, @is_bibliography_body example_collaborators "References" "en" 91 = inr b
         ∧ (b = true ↔ ∃ best,
              @best_score example_collaborators "References"
                ["References"; "Bibliography"]%string = Some best
              ∧ (91 ≤ best)%Z).
Proof.
  assert (@bibliography example_collaborators !! "en"%string
          = Some ["References"; "Bibliography"]%string) as Hl by (vm_compute; reflexivity).
  split; [exact Hl|].
  exact (proj1 (@is_bibliography_decision example_collaborators) "References"%string
           "en"%string 91%Z _ Hl).
Defined.

End ClassifierFacts.

(** ** The pipeline *)

Module PipelineFacts.
Import Functools FunctoolsFacts Bibliography ClassifierFacts.

Section Pipeline.
Context `{Collaborators}.

(** *** The counters *)

Lemma counter_get_incr counter key key' :
  counter_get (counter_incr counter key) key'
  = if decide (key = key') then (counter_get counter key + 1)%Z
    else counter_get counter key'.
Proof.
  unfold counter_incr, counter_get at 1. destruct (decide (key = key')) as [->|Hne].
  - by rewrite lookup_insert_eq.
  - by rewrite lookup_insert_ne.
Qed.

Lemma good_update f w :
  good w → last_le_global (f (stats w)) → good (update f w).
Proof. intros Hw Hf. unfold good, states, update. simpl. by constructor. Qed.

Lemma good_stats w : good w → last_le_global (stats w).
Proof. intros Hw. unfold good, states in Hw. by apply Forall_cons in Hw as [? _]. Qed.

Lemma incr_global_le name st :
  last_le_global st → last_le_global (incr_global name st).
Proof.
  intros Hst key. simpl. rewrite counter_get_incr. specialize (Hst key).
  destruct (decide (name = key)) as [->|]; lia.
Qed.

(** After [global[name] += 1] there is room for [last_revision[name] += 1]. *)
Lemma incr_last_after_global_le name st :
  last_le_global st → last_le_global (incr_last_revision name (incr_global name st)).
Proof.
  intros Hst key. simpl. rewrite !counter_get_incr. specialize (Hst key).
  destruct (decide (name = key)) as [->|]; lia.
Qed.

Lemma incr_revisions_analyzed_le st :
  last_le_global st → last_le_global (incr_revisions_analyzed st).
Proof. intros Hst key. apply Hst. Qed.

Lemma incr_pages_analyzed_le st :
  last_le_global st → last_le_global (incr_pages_analyzed st).
Proof. intros Hst key. apply Hst. Qed.

(** *** The classifier does not touch the statistics *)

Lemma is_bibliography_frame c w :
  stats (is_bibliography c w).2 = stats w
  ∧ history (is_bibliography c w).2 = history w.
Proof.
  unfold is_bibliography.
  by destruct (lru_call 500 is_bibliography_of_call (cache w) c).
Qed.

Lemma bibliography_sections_of_frame language secs : ∀ w,
  stats (bibliography_sections_of language secs w).2 = stats w
  ∧ history (bibliography_sections_of language secs w).2 = history w.
Proof.
  induction secs as [|sec secs IH]; intros w; simpl; [done|].
  destruct (is_bibliography_frame (name sec, language, None) w) as [Hs Hh].
  destruct (is_bibliography (name sec, language, None) w) as [[e|b] w1]; simpl in *; [done|].
  destruct (IH w1) as [Hs' Hh'].
  destruct (bibliography_sections_of language secs w1) as [[e|l] w2]; simpl in *;
    split; congruence.
Qed.

Lemma good_frame w w' :
  stats w' = stats w → history w' = history w → good w → good w'.
Proof. unfold good, states. by intros -> ->. Qed.

(** *** The invariant is kept by every step of the generators *)

Lemma count_sections_good is_last secs : ∀ w,
  good w → good (count_sections is_last secs w).
Proof.
  induction secs as [|sec secs IH]; intros w Hw; simpl; [done|].
  apply IH. pose proof (good_stats _ Hw) as Hst.
  assert (good (update (incr_global (name sec)) w)) as Hw1
    by (apply good_update; [done|by apply incr_global_le]).
  destruct is_last; [|done].
  apply good_update; [done|]. simpl. by apply incr_last_after_global_le.
Qed.

Lemma extract_revisions_loop_good language only_last revs : ∀ w,
  good w → good (extract_revisions_loop language only_last revs w).2.
Proof.
  induction revs as [|r revs IH]; intros w Hw; cbn [extract_revisions_loop]; [done|].
  destruct (only_last && negb (negb (has_next revs))); [by apply IH|].
  destruct (bibliography_sections_of_frame language
              (sections (remove_comments (default ""%string (Mwxml.Revision.text r)))) w)
    as [Hs Hh].
  destruct (bibliography_sections_of language _ w) as [[e|secs] w1]; simpl in *.
  - by eapply good_frame.
  - apply count_sections_good. by eapply good_frame.
Qed.

Lemma rev_resume_good g w : good w → good (rev_resume g w).2.
Proof.
  intros Hw. unfold rev_resume.
  pose proof (extract_revisions_loop_good (rev_language g) (rev_only_last_revision g)
                (rev_pending g) w Hw) as Hg.
  by destruct (extract_revisions_loop _ _ _ w) as [[r pending] w1].
Qed.

Lemma rev_next_good g w : good w → good (rev_next g w).2.
Proof.
  intros Hw. unfold rev_next. destruct (rev_status g); [by apply rev_resume_good| |done].
  apply rev_resume_good, good_update; [done|].
  by apply incr_revisions_analyzed_le, good_stats.
Qed.

Lemma pages_resume_world g w : (pages_resume g w).2 = w.
Proof. unfold pages_resume. by destruct (extract_pages_loop _ _ _). Qed.

Lemma pages_next_good g w : good w → good (pages_next g w).2.
Proof.
  intros Hw. unfold pages_next. destruct (pages_status g);
    rewrite ?pages_resume_world; [done| |done].
  apply good_update; [done|]. by apply incr_pages_analyzed_le, good_stats.
Qed.

Lemma step_good a sys : good (world sys) → good (world (step a sys)).
Proof.
  intros Hw. destruct a as [|i]; simpl.
  - pose proof (pages_next_good (pages_generator sys) _ Hw) as Hg.
    by destruct (pages_next _ _) as [[r g1] w1].
  - destruct (revisions_generators sys !! i) as [g|]; [|done].
    pose proof (rev_next_good g _ Hw) as Hg.
    by destruct (rev_next _ _) as [[r g1] w1].
Qed.

Lemma run_actions_good actions : ∀ sys,
  good (world sys) → good (world (run_actions actions sys)).
Proof.
  induction actions as [|a actions IH]; intros sys Hw; [done|].
  apply IH. by apply step_good.
Qed.

Lemma consume_revisions_good fuel : ∀ g w,
  good w → good (consume_revisions fuel g w).2.
Proof.
  induction fuel as [|fuel IH]; intros g w Hw; cbn [consume_revisions]; [done|].
  pose proof (rev_next_good g w Hw) as Hg.
  destruct (rev_next g w) as [[[rev| |e] g1] w1]; cbn [snd fst] in *; [|done..].
  specialize (IH g1 w1 Hg).
  by destruct (consume_revisions fuel g1 w1) as [[out e] w2].
Qed.

Lemma consume_pages_good fuel : ∀ g w,
  good w → good (consume_pages fuel g w).2.
Proof.
  induction fuel as [|fuel IH]; intros g w Hw; cbn [consume_pages]; [done|].
  pose proof (pages_next_good g w Hw) as Hg.
  destruct (pages_next g w) as [[[page| |e] g1] w1]; cbn [snd fst] in *; [|done..].
  pose proof (consume_revisions_good (S (length (rev_pending (Page.revisions page))))
                (Page.revisions page) w1 Hg) as Hr.
  destruct (consume_revisions _ _ w1) as [[out [e|]] w2]; cbn [snd fst] in *; [done|].
  specialize (IH g1 w2 Hr).
  by destruct (consume_pages fuel g1 w2) as [[pages e] w3].
Qed.

Lemma good_initial : good initial_world.
Proof.
  unfold good, states. simpl. constructor; [|constructor].
  intros key. unfold counter_get. simpl. by rewrite lookup_empty.
Qed.

(** *** Full consumption *)

(** On a coherent cache the sections that [extract_revisions] keeps are the
    classified ones. *)
Lemma bibliography_sections_of_classified language secs : ∀ w,
  coherent is_bibliography_of_call (cache w) →
  (bibliography_sections_of language secs w).1 = classified language secs
  ∧ coherent is_bibliography_of_call (cache (bibliography_sections_of language secs w).2).
Proof.
  induction secs as [|sec secs IH]; intros w Hc; simpl; [done|].
  destruct (is_bibliography_transparent (name sec, language, None) w Hc)
    as (Hr & _ & Hc1 & _).
  destruct (is_bibliography (name sec, language, None) w) as [r w1]. simpl in Hr, Hc1.
  rewrite <- Hr. destruct r as [e|b]; [done|].
  destruct (IH w1 Hc1) as [Hl Hc2].
  destruct (bibliography_sections_of language secs w1) as [[e|l] w2]; simpl in *;
    by rewrite <- Hl.
Qed.

Lemma count_sections_stats is_last secs : ∀ w,
  stats (count_sections is_last secs w) = count_stats is_last secs (stats w)
  ∧ cache (count_sections is_last secs w) = cache w.
Proof.
  unfold count_stats.
  induction secs as [|sec secs IH]; intros w; simpl; [done|].
  destruct (IH (if is_last
                then update (incr_last_revision (name sec)) (update (incr_global (name sec)) w)
                else update (incr_global (name sec)) w)) as [-> ->].
  by destruct is_last.
Qed.

(** A revision that is processed: the generator yields, and the names of
    its classified sections are counted. *)
Lemma extract_revisions_loop_process language only_last r revs w secs :
  coherent is_bibliography_of_call (cache w) →
  classified language (sections_of r) = inr secs →
  only_last && has_next revs = false →
  ∃ rev w1,
    extract_revisions_loop language only_last (r :: revs) w = (Yield rev, revs, w1)
    ∧ coherent is_bibliography_of_call (cache w1)
    ∧ stats w1 = count_stats (negb (has_next revs)) secs (stats w).
Proof.
  intros Hc Hsecs Hlast. cbn [extract_revisions_loop].
  rewrite negb_involutive, Hlast.
  destruct (bibliography_sections_of_classified language (sections_of r) w Hc) as [Hr Hc1].
  destruct (bibliography_sections_of_frame language (sections_of r) w) as [Hs _].
  unfold sections_of in *.
  destruct (bibliography_sections_of language _ w) as [r1 w1]. simpl in Hr, Hc1, Hs.
  rewrite Hr, Hsecs.
  destruct (count_sections_stats (negb (has_next revs)) secs w1) as [Hst Hca].
  eexists _, _. split; [done|]. split; [by rewrite Hca|]. by rewrite Hst, Hs.
Qed.

(** With [only_last_revision], a revision that has a successor is skipped. *)
Lemma extract_revisions_loop_skip language r r' revs w :
  extract_revisions_loop language true (r :: r' :: revs) w
  = extract_revisions_loop language true (r' :: revs) w.
Proof. done. Qed.

Lemma rev_next_process language only_last status r revs w secs :
  status ≠ Finished →
  coherent is_bibliography_of_call (cache w) →
  classified language (sections_of r) = inr secs →
  only_last && has_next revs = false →
  ∃ rev w1,
    rev_next (mkRevGen language only_last status (r :: revs)) w
    = (Yield rev, mkRevGen language only_last AtYield revs, w1)
    ∧ coherent is_bibliography_of_call (cache w1)
    ∧ stats w1 = count_stats (negb (has_next revs)) secs (resumed status (stats w)).
Proof.
  intros Hst Hc Hsecs Hlast. unfold rev_next, rev_resume. cbn [rev_status rev_language
    rev_only_last_revision rev_pending].
  destruct status; [| |done].
  - destruct (extract_revisions_loop_process language only_last r revs w secs Hc Hsecs Hlast)
      as (rev & w1 & -> & Hc1 & Hs). eauto.
  - destruct (extract_revisions_loop_process language only_last r revs
                (update incr_revisions_analyzed w) secs Hc Hsecs Hlast)
      as (rev & w1 & -> & Hc1 & Hs). eauto.
Qed.

Lemma rev_next_skip language status r r' revs w :
  status ≠ Finished →
  rev_next (mkRevGen language true status (r :: r' :: revs)) w
  = rev_next (mkRevGen language true status (r' :: revs)) w.
Proof. intros Hst. unfold rev_next, rev_resume. by destruct status. Qed.

Lemma rev_next_end language only_last status w :
  status ≠ Finished →
  ∃ w1, rev_next (mkRevGen language only_last status []) w
        = (StopIter, mkRevGen language only_last Finished [], w1)
        ∧ cache w1 = cache w
        ∧ stats w1 = resumed status (stats w).
Proof.
  intros Hst. unfold rev_next, rev_resume. destruct status; [| |done]; simpl; eauto.
Qed.

Lemma counter_get_References_3 st :
  counter_get (global (section_names st)) "References" = 0%Z →
  counter_get (last_revision (section_names st)) "References" = 0%Z →
  ∀ st',
    st' = incr_pages_analyzed (incr_revisions_analyzed
           (incr_last_revision "References" (incr_global "References"
             (incr_revisions_analyzed (incr_global "References"
               (incr_revisions_analyzed (incr_global "References" st))))))) →
    counter_get (global (section_names st')) "References" = 3%Z
    ∧ counter_get (last_revision (section_names st')) "References" = 1%Z
    ∧ revisions_analyzed (performance st') = (revisions_analyzed (performance st) + 3)%Z
    ∧ pages_analyzed (performance st') = (pages_analyzed (performance st) + 1)%Z.
Proof.
  intros Hg Hl st' ->. simpl. rewrite !counter_get_incr.
  repeat (destruct (decide _); [|done]). rewrite Hg, Hl. repeat split; lia.
Qed.

End Pipeline.

(** C4 (counter consistency).  A dump of one page in namespace 0 with three
    revisions, each with exactly one section classified as bibliography,
    named [References], is consumed to its end from the [stats] of [main].
    Without [only_last_revision] no exception ends the run, three revisions
    are rendered, [global] counts [References] 3 times and [last_revision]
    once (3 revisions and 1 page are analyzed).  With
    [only_last_revision] one revision is rendered, and 1 revision and
    1 page are analyzed. *)
Theorem counter_consistency `{Collaborators}
    (mw_page : Mwxml.Page.t) (language : string) (r1 r2 r3 : Mwxml.Revision.t) :
  Mwxml.Page.namespace mw_page = 0%Z →
  Mwxml.Page.revisions mw_page = [r1; r2; r3] →
  one_references language r1 →
  one_references language r2 →
  one_references language r3 →
  (∃ page revs w,
     run_pipeline [mw_page] language false initial_world = ([(page, revs)], None, w)
     ∧ length revs = 3
     ∧ counter_get (global (section_names (stats w))) "References" = 3%Z
     ∧ counter_get (last_revision (section_names (stats w))) "References" = 1%Z
     ∧ revisions_analyzed (performance (stats w)) = 3%Z
     ∧ pages_analyzed (performance (stats w)) = 1%Z)
  ∧ (∃ page revs w,
     run_pipeline [mw_page] language true initial_world = ([(page, revs)], None, w)
     ∧ length revs = 1
     ∧ revisions_analyzed (performance (stats w)) = 1%Z
     ∧ pages_analyzed (performance (stats w)) = 1%Z
     ∧ counter_get (global (section_names (stats w))) "References" = 1%Z
     ∧ counter_get (last_revision (section_names (stats w))) "References" = 1%Z).
Proof.
  intros Hns Hrevs (s1 & Hs1 & Hn1) (s2 & Hs2 & Hn2) (s3 & Hs3 & Hn3).
  assert (coherent is_bibliography_of_call (cache initial_world)) as Hc0
    by apply coherent_nil.
  assert (negb (Mwxml.Page.namespace mw_page =? 0)%Z = false) as Hz
    by (rewrite Hns; reflexivity).
  split.
  - unfold run_pipeline. cbn [length consume_pages].
    unfold pages_next at 1, pages_resume. cbn [extract_pages pages_status pages_language
      pages_only_last_revision pages_pending extract_pages_loop].
    rewrite Hz. cbn [Page.revisions extract_revisions rev_pending].
    unfold extract_revisions. rewrite Hrevs. cbn [length consume_revisions].
    destruct (rev_next_process language false NotStarted r1 [r2; r3] initial_world [s1])
      as (v1 & w1 & -> & Hc1 & Hst1); [done..|].
    destruct (rev_next_process language false AtYield r2 [r3] w1 [s2])
      as (v2 & w2 & -> & Hc2 & Hst2); [done..|].
    destruct (rev_next_process language false AtYield r3 [] w2 [s3])
      as (v3 & w3 & -> & Hc3 & Hst3); [done..|].
    destruct (rev_next_end language false AtYield w3) as (w4 & -> & Hc4 & Hst4); [done|].
    unfold pages_next, pages_resume. cbn [pages_status pages_language
      pages_only_last_revision pages_pending extract_pages_loop].
    eexists _, _, _. split; [reflexivity|]. split; [reflexivity|].
    cbn [stats update].
    eapply (counter_get_References_3 initial_stats); [done..|].
    rewrite Hst4, Hst3, Hst2, Hst1. unfold count_stats, resumed. simpl foldl.
    by rewrite Hn1, Hn2, Hn3.
  - unfold run_pipeline. cbn [length consume_pages].
    unfold pages_next at 1, pages_resume. cbn [extract_pages pages_status pages_language
      pages_only_last_revision pages_pending extract_pages_loop].
    rewrite Hz. cbn [Page.revisions extract_revisions rev_pending].
    unfold extract_revisions. rewrite Hrevs. cbn [length consume_revisions].
    rewrite !rev_next_skip by done.
    destruct (rev_next_process language true NotStarted r3 [] initial_world [s3])
      as (v3 & w3 & -> & Hc3 & Hst3); [done..|].
    destruct (rev_next_end language true AtYield w3) as (w4 & -> & Hc4 & Hst4); [done|].
    unfold pages_next, pages_resume. cbn [pages_status pages_language
      pages_only_last_revision pages_pending extract_pages_loop].
    eexists _, _, _. split; [reflexivity|]. split; [reflexivity|].
    cbn [stats update]. rewrite Hst4, Hst3. unfold count_stats, resumed. simpl foldl.
    rewrite Hn3. simpl. rewrite !counter_get_incr.
    repeat (destruct (decide _); [|done]). done.
Qed.

Lemma counter_consistency_witness :
  @one_references example_collaborators "en" (example_revision 1)
  ∧ @one_references example_collaborators "en" (example_revision 2)
  ∧ @one_references example_collaborators "en" (example_revision 3)
  ∧ (∃ page revs w,
       @run_pipeline example_collaborators [example_page] "en" false initial_world
       = ([(page, revs)], None, w)
       ∧ length revs = 3
       ∧ counter_get (global (section_names (stats w))) "References" = 3%Z
       ∧ counter_get (last_revision (section_names (stats w))) "References" = 1%Z
       ∧ revisions_analyzed (performance (stats w)) = 3%Z
       ∧ pages_analyzed (performance (stats w)) = 1%Z)
  ∧ (∃ page revs w,
       @run_pipeline example_collaborators [example_page] "en" true initial_world
       = ([(page, revs)], None, w)
       ∧ length revs = 1
       ∧ revisions_analyzed (performance (stats w)) = 1%Z
       ∧ pages_analyzed (performance (stats w)) = 1%Z
       ∧ counter_get (global (section_names (stats w))) "References" = 1%Z
       ∧ counter_get (last_revision (section_names (stats w))) "References" = 1%Z).
Proof.
  assert (∀ i, @one_references example_collaborators "en" (example_revision i)) as Hone.
  { intros i. exists (mkSection "References" 2 "References").
    split; [vm_compute; reflexivity|reflexivity]. }
  split; [apply Hone|]. split; [apply Hone|]. split; [apply Hone|].
  exact (@counter_consistency example_collaborators example_page "en"
           (example_revision 1) (example_revision 2) (example_revision 3)
           eq_refl eq_refl (Hone 1%Z) (Hone 2%Z) (Hone 3%Z)).
Defined.

(** C7 (the counters of the section names).  From the [stats] that [main]
    creates, every value that [stats] takes (after each single update of a
    counter, whoever consumes the generators, in whatever order) counts
    every section name at most as often in [last_revision] as in [global].
    This holds for any sequence of [next] calls on the generator of the
    pages and on the generators of the revisions it has yielded, and in
    particular when the pipeline is consumed to its end as [main] does. *)
Theorem last_revision_le_global `{Collaborators} :
  (∀ dump language only_last_revision actions,
     Forall last_le_global
       (states (world (run_actions actions
          (mkSystem initial_world (extract_pages dump language only_last_revision) [])))))
  ∧ (∀ dump language only_last_revision,
     Forall last_le_global
       (states (run_pipeline dump language only_last_revision initial_world).2)).
Proof.
  split.
  - intros dump language only_last actions.
    apply (run_actions_good actions
             (mkSystem initial_world (extract_pages dump language only_last) [])).
    apply good_initial.
  - intros dump language only_last. apply consume_pages_good, good_initial.
Qed.

(** X3 (namespace filter).  A page outside namespace 0 is skipped: the
    pipeline over a dump of that page alone renders nothing and leaves the
    state as it was, so [pages_analyzed] is not incremented. *)
Theorem namespace_filter `{Collaborators} (mw_page : Mwxml.Page.t)
    (language : string) (only_last_revision : bool) (w : World) :
  Mwxml.Page.namespace mw_page ≠ 0%Z →
  run_pipeline [mw_page] language only_last_revision w = ([], None, w).
Proof.
  intros Hns. unfold run_pipeline. cbn [length consume_pages].
  unfold pages_next, pages_resume. cbn [extract_pages pages_status pages_language
    pages_only_last_revision pages_pending extract_pages_loop].
  apply Z.eqb_neq in Hns. by rewrite Hns.
Qed.

Lemma namespace_filter_witness :
  Mwxml.Page.namespace (Mwxml.Page.mk 9 1 "Talk:Title" [example_revision 1]) ≠ 0%Z
  ∧ @run_pipeline example_collaborators
      [Mwxml.Page.mk 9 1 "Talk:Title" [example_revision 1]] "en" false initial_world
    = ([], None, initial_world).
Proof.
  assert (Mwxml.Page.namespace (Mwxml.Page.mk 9 1 "Talk:Title" [example_revision 1]) ≠ 0%Z)
    as Hns by (simpl; lia).
  split; [exact Hns|].
  exact (@namespace_filter example_collaborators _ "en" false initial_world Hns).
Defined.

End PipelineFacts.

(** ** More on [extract_search] *)

Module CaptureFacts.
Import Regex RegexFacts Doi DoiMore LexerFacts ReadDoiFacts ExtractFacts.

Section Captures.
Context `{UnicodeTables}.

Lemma extract_search_loop_captured text all matches : ∀ last_end,
  Forall (fun m => doi_match text m ∧ m ∈ all) matches →
  all = finditer DOI_START_RE text →
  Forall (captured text) (extract_search_loop text matches last_end).1.
Proof.
  induction matches as [|m matches IH]; intros last_end Hall Heq; [constructor|].
  apply Forall_cons in Hall as [[(n & Hr & Hend) Hin] Hall]. cbn [extract_search_loop].
  destruct (last_end <? m_start m) eqn:Hlt.
  - apply Nat.ltb_lt in Hlt.
    destruct (tokenize_search_doi_start _ _ _ Hr) as (match_ & tokens & rest & Htok & Hm).
    rewrite Htok, read_doi_eq.
    specialize (IH (m_start m + length (Common.id
       (Common.mkIdentifier "doi" (strip_punctuation_at_end (accumulated match_ tokens)))))
       Hall Heq).
    destruct (extract_search_loop text matches _) as [out e]. cbn [fst] in *.
    constructor; [|done].
    exists m, match_, tokens. cbn [Common.span Common.value Common.span_start
      Common.span_end]. subst all. repeat split; try done. lia.
  - by apply IH.
Qed.

Lemma finditer_doi_matches_in text :
  Forall (fun m => doi_match text m ∧ m ∈ finditer DOI_START_RE text)
    (finditer DOI_START_RE text).
Proof.
  pose proof (finditer_doi_matches (2 * length text + 2) text 0) as Hall.
  fold (finditer DOI_START_RE text) in Hall.
  rewrite Forall_forall in Hall |- *. intros m Hin. split; [by apply Hall|done].
Qed.

Lemma extract_search_captured text :
  Forall (captured text) (extract_search text).1.
Proof.
  eapply extract_search_loop_captured; [apply finditer_doi_matches_in|done].
Qed.

(** The text from the offset on starts with the accumulated text. *)
Lemma accumulated_in_text text start match_ tokens :
  tokenize_search text start = (doi_start, match_) :: tokens →
  ∃ tail, drop start text = accumulated match_ tokens ++ tail.
Proof.
  intros Htok. pose proof (tokenize_search_Lexes text start) as HL.
  apply Lexes_lossless in HL. rewrite Htok in HL. cbn [map concat snd] in HL.
  unfold accumulated.
  destruct (read_doi_loop_spec tokens ∅ [match_]) as (consumed & Hsplit & -> & _).
  exists (concat (map snd (left_over match_ tokens))).
  rewrite <- HL. rewrite Hsplit at 1. unfold left_over.
  rewrite map_app, concat_app. cbn [app concat].
  by rewrite <- app_assoc.
Qed.

(** The id is what the text holds from the offset on. *)
Lemma id_in_text text start match_ tokens :
  tokenize_search text start = (doi_start, match_) :: tokens →
  ∃ tail, drop start text = strip_punctuation_at_end (accumulated match_ tokens) ++ tail.
Proof.
  intros Htok. destruct (accumulated_in_text _ _ _ _ Htok) as [tail Htail].
  destruct (strip_trailing_run (accumulated match_ tokens)) as (run & Hrun & _).
  { pose proof (tokenize_search_lexed text start) as Hlex. rewrite Htok in Hlex.
    intros Hlast%last_Some_elem_of. by apply accumulated_no_newline in Hlast. }
  exists (run ++ tail). rewrite Htail. rewrite Hrun at 1. by rewrite <- app_assoc.
Qed.

End Captures.

(** X4 (a span is where its id stands).  For every text, every capture
    that [extract_search] yields has the kind [doi]; its span starts at the
    start of a match of [DOI_START_RE] behind offset 0, ends within the
    text, is as long as the id, and the text between the two offsets of the
    span is the id. *)
Theorem extract_search_span_is_id `{UnicodeTables} (text : list N)
    (r : Common.CaptureResult) :
  r ∈ (extract_search text).1 →
  Common.kind (Common.value r) = "doi"%string
  ∧ (∃ m, m ∈ finditer DOI_START_RE text
          ∧ 0 < m_start m ∧ Common.span_start (Common.span r) = m_start m)
  ∧ Common.span_end (Common.span r)
    = Common.span_start (Common.span r) + length (Common.id (Common.value r))
  ∧ Common.span_end (Common.span r) ≤ length text
  ∧ take (Common.span_end (Common.span r) - Common.span_start (Common.span r))
      (drop (Common.span_start (Common.span r)) text)
    = Common.id (Common.value r).
Proof.
  intros Hin. pose proof (extract_search_captured text) as Hall.
  rewrite Forall_forall in Hall.
  destruct (Hall _ Hin) as (m & match_ & tokens & Hm & Hpos & Hstart & Htok & Hval & Hend).
  destruct (id_in_text _ _ _ _ Htok) as [tail Htail].
  rewrite Hval in *. cbn [Common.kind Common.id] in *.
  split; [done|]. split; [eauto|]. split; [by rewrite Hend, Hstart|].
  assert (length (drop (m_start m) text)
          = length (strip_punctuation_at_end (accumulated match_ tokens)) + length tail)
    as Hlen by (by rewrite Htail, length_app).
  rewrite length_drop in Hlen. rewrite Hstart, Hend.
  assert (0 < length (strip_punctuation_at_end (accumulated match_ tokens))) as Hne.
  { pose proof (tokenize_search_lexed text (m_start m)) as Hlex. rewrite Htok in Hlex.
    apply Forall_cons in Hlex as [[rest Hlang]%lexed_doi_start _].
    destruct (id_nonempty _ _ tokens Hlang) as [more ->].
    apply lang_min_len in Hlang. change (min_len DOI_START_pattern) with 8 in Hlang.
    rewrite length_app. lia. }
  split; [lia|].
  rewrite Htail.
  replace (m_start m + length (strip_punctuation_at_end (accumulated match_ tokens))
           - m_start m)
    with (length (strip_punctuation_at_end (accumulated match_ tokens))) by lia.
  by rewrite take_app_length.
Qed.

Lemma extract_search_span_is_id_witness :
  Common.mkCaptureResult (Common.mkIdentifier "doi" (text_of "10.1000/a[b]c"))
    (Common.mkSpan 4 17)
    ∈ (@extract_search ascii_tables (text_of "see 10.1000/a[b]c. Next")).1
  ∧ take (17 - 4) (drop 4 (text_of "see 10.1000/a[b]c. Next")) = text_of "10.1000/a[b]c".
Proof.
  assert (Common.mkCaptureResult (Common.mkIdentifier "doi" (text_of "10.1000/a[b]c"))
            (Common.mkSpan 4 17)
          ∈ (@extract_search ascii_tables (text_of "see 10.1000/a[b]c. Next")).1) as Hin.
  { vm_compute. left. }
  split; [exact Hin|].
  exact (proj2 (proj2 (proj2 (proj2
           (@extract_search_span_is_id ascii_tables _ _ Hin))))).
Defined.

End CaptureFacts.

(** ** The characters of an identifier *)

Module IdentifierFacts.
Import Regex RegexFacts Doi DoiMore LexerFacts ReadDoiFacts ExtractFacts CaptureFacts.

Section Identifier.
Context `{UnicodeTables}.

(** *** The priority of the lexicon *)

Lemma match_here_cons_inv {A} r (nm : A) re s adv name n :
  match_here ((r, nm) :: re) s adv = Some (name, n) →
  (exec r s 0 (accept adv) = Some n ∧ nm = name)
  ∨ (exec r s 0 (accept adv) = None ∧ match_here re s adv = Some (name, n)).
Proof.
  cbn [match_here]. destruct (exec r s 0 (accept adv)) as [n'|].
  - intros [= -> ->]. by left.
  - intros ?. by right.
Qed.

Lemma exec_cls_inv p c s :
  exec (Cls p) (c :: s) 0 (accept false) = if p c then Some 1 else None.
Proof. simpl. by destruct (p c). Qed.

Lemma exec_plus_None p c s :
  exec (Plus p) (c :: s) 0 (accept false) = None → p c = false.
Proof.
  intros Hn. destruct (p c) eqn:Hc; [|done].
  destruct (exec_plus p c s Hc) as [n Hs]. congruence.
Qed.

Lemma exec_lit_None a c s :
  exec (lit a) (c :: s) 0 (accept false) = None → c ≠ N_of_ascii a.
Proof.
  unfold lit. rewrite exec_cls_inv. destruct (N.eqb_spec (N_of_ascii a) c); [done|].
  intros _ ->. done.
Qed.

(** An [etc] token is one character that no earlier group of the lexicon
    matches. *)
Lemma lexicon_etc c s n :
  match_here _lexicon_re (c :: s) false = Some (etc, n) →
  n = 1
  ∧ c ≠ 91%N ∧ c ≠ 93%N ∧ c ≠ 123%N ∧ c ≠ 125%N ∧ c ≠ 124%N
  ∧ is_punct c = false ∧ is_url_end c = false ∧ is_space c = false
  ∧ is_word c = false.
Proof.
  unfold _lexicon_re, compile_lexicon, LEXICON. intros Hm.
  apply match_here_cons_inv in Hm as [[_ [=]]|[_ Hm]].
  apply match_here_cons_inv in Hm as [[_ [=]]|[_ Hm]].
  apply match_here_cons_inv in Hm as [[_ [=]]|[_ Hm]].
  apply match_here_cons_inv in Hm as [[_ [=]]|[Hob%exec_lit_None Hm]].
  apply match_here_cons_inv in Hm as [[_ [=]]|[Hcb%exec_lit_None Hm]].
  apply match_here_cons_inv in Hm as [[_ [=]]|[_ Hm]].
  apply match_here_cons_inv in Hm as [[_ [=]]|[_ Hm]].
  apply match_here_cons_inv in Hm as [[_ [=]]|[_ Hm]].
  apply match_here_cons_inv in Hm as [[_ [=]]|[_ Hm]].
  apply match_here_cons_inv in Hm as [[_ [=]]|[_ Hm]].
  apply match_here_cons_inv in Hm as [[_ [=]]|[Hoc%exec_lit_None Hm]].
  apply match_here_cons_inv in Hm as [[_ [=]]|[Hcc%exec_lit_None Hm]].
  apply match_here_cons_inv in Hm as [[_ [=]]|[Hpi%exec_lit_None Hm]].
  apply match_here_cons_inv in Hm as [[_ [=]]|[Hpu Hm]].
  apply match_here_cons_inv in Hm as [[_ [=]]|[Hue Hm]].
  apply match_here_cons_inv in Hm as [[_ [=]]|[_ Hm]].
  apply match_here_cons_inv in Hm as [[_ [=]]|[Hsp%exec_plus_None Hm]].
  apply match_here_cons_inv in Hm as [[_ [=]]|[Hwo%exec_plus_None Hm]].
  apply match_here_cons_inv in Hm as [[He _]|[_ [=]]].
  rewrite exec_cls_inv in Hpu, Hue, He.
  destruct (is_punct c); [done|]. destruct (is_url_end c); [done|].
  destruct (is_dot c); [|done]. injection He as <-.
  repeat split; done.
Qed.

Lemma Lexes_lexer_token s toks : Lexes s toks → Forall lexer_token toks.
Proof.
  induction 1 as [|c s name n toks Hm _ IH]; constructor; [|done].
  exists c, s, n. done.
Qed.

Lemma lexer_token_lexed tok : lexer_token tok → lexed tok.
Proof.
  destruct tok as [name w]. intros (c & s & n & Hm & Hw). cbn [fst snd] in *. subst w.
  by apply lexicon_match in Hm as [_ ?].
Qed.

(** A token that is not an [etc] holds only what its pattern can match. *)
Lemma lexer_token_excludes tok ch :
  lexer_token tok →
  forallb (fun e : regex * token_name =>
             if decide (e.2 = tok.1) then excludes ch e.1 else true) LEXICON = true →
  ch ∉ tok.2.
Proof.
  intros (r & rest & Hin & Hlang)%lexer_token_lexed Hall.
  rewrite forallb_forall in Hall. apply list_elem_of_In in Hin.
  specialize (Hall _ Hin). cbn [fst snd] in Hall.
  destruct (decide (tok.1 = tok.1)); [|done]. by eapply lang_excludes.
Qed.

Lemma is_terminator_char_cases ch :
  is_terminator_char ch = true →
  ch ∈ [9; 10; 11; 12; 13; 32; 124; 63; 35]%N.
Proof.
  unfold is_terminator_char. rewrite !orb_true_iff, andb_true_iff.
  rewrite !N.eqb_eq, !N.leb_le. intros Hc.
  assert (ch = 9 ∨ ch = 10 ∨ ch = 11 ∨ ch = 12 ∨ ch = 13 ∨ ch = 32 ∨ ch = 124
          ∨ ch = 63 ∨ ch = 35)%N as Hcases by lia.
  rewrite !elem_of_cons. tauto.
Qed.

(** The tokens that [read_doi] accumulates hold no terminator character. *)
Lemma lexer_token_no_terminator_char tok ch :
  lexer_token tok → is_terminator tok.1 = false → ch ∈ tok.2 →
  is_terminator_char ch = false.
Proof.
  intros Htok Hnt Hin. destruct (is_terminator_char ch) eqn:Hch; [exfalso|done].
  destruct tok as [name w]. cbn [fst snd] in *.
  destruct (decide (name = etc)) as [->|Hne].
  - destruct Htok as (c & s & n & Hm & Hw). cbn [fst snd] in *.
    apply lexicon_etc in Hm as (-> & _ & _ & _ & _ & Hpipe & _ & Hurl & Hsp & _).
    subst w. apply list_elem_of_singleton in Hin as ->.
    unfold is_terminator_char in Hch. unfold is_space in Hsp. unfold is_url_end in Hurl.
    apply orb_false_iff in Hsp as [Hsp _]. rewrite Hsp in Hch.
    apply orb_false_iff in Hurl as [Hq Hh]. rewrite Hq, Hh in Hch.
    simpl in Hch. rewrite !orb_false_r in Hch. apply N.eqb_eq in Hch. done.
  - refine (lexer_token_excludes (name, w) ch Htok _ Hin). cbn [fst].
    apply is_terminator_char_cases in Hch.
    repeat (apply elem_of_cons in Hch as [->|Hch];
            [destruct name; try discriminate Hnt; try (by destruct Hne);
               vm_compute; reflexivity|]).
    by apply elem_of_nil in Hch.
Qed.

Lemma accumulated_elem_of match_ tokens ch :
  ch ∈ accumulated match_ tokens →
  ∃ tok, tok ∈ (doi_start, match_) :: tokens ∧ is_terminator tok.1 = false ∧ ch ∈ tok.2.
Proof.
  unfold accumulated.
  destruct (read_doi_loop_spec tokens ∅ [match_]) as (consumed & Hsplit & -> & Hnt).
  change ([match_] ++ map snd consumed) with (map snd ((doi_start, match_) :: consumed)).
  intros Hin. apply list_elem_of_In, in_concat in Hin as (w & Hw & Hch).
  apply list_elem_of_In in Hw, Hch.
  apply list_elem_of_fmap in Hw as (tok & -> & Htok).
  exists tok. apply elem_of_cons in Htok as [->|Htok].
  - split; [left|done].
  - split; [right; rewrite Hsplit; apply elem_of_app; by left|].
    rewrite Forall_forall in Hnt. split; [by apply Hnt|done].
Qed.

Lemma id_subset_accumulated match_ tokens ch :
  Forall lexer_token ((doi_start, match_) :: tokens) →
  ch ∈ strip_punctuation_at_end (accumulated match_ tokens) →
  ch ∈ accumulated match_ tokens.
Proof.
  intros Hall Hin.
  destruct (strip_trailing_run (accumulated match_ tokens)) as (run & Hrun & _).
  { intros Hlast%last_Some_elem_of. revert Hlast. apply accumulated_no_newline.
    eapply Forall_impl; [exact Hall|]. apply lexer_token_lexed. }
  rewrite Hrun. apply elem_of_app. by left.
Qed.

Lemma id_no_terminator_char match_ tokens ch :
  Forall lexer_token ((doi_start, match_) :: tokens) →
  ch ∈ strip_punctuation_at_end (accumulated match_ tokens) →
  is_terminator_char ch = false.
Proof.
  intros Hall Hin. apply id_subset_accumulated in Hin; [|done].
  apply accumulated_elem_of in Hin as (tok & Htok & Hnt & Hch).
  rewrite Forall_forall in Hall. eapply lexer_token_no_terminator_char; eauto.
Qed.

(** *** [extract_island] *)

Lemma extract_island_loop_read all fuel : ∀ before toks,
  all = before ++ toks →
  Forall (island_read all) (extract_island_loop fuel toks).1.
Proof.
  induction fuel as [|fuel IH]; intros before toks Hall; [constructor|].
  cbn [extract_island_loop]. destruct toks as [|[name m] toks]; [constructor|].
  destruct (decide (name = doi_start)) as [->|Hne].
  - rewrite read_doi_eq.
    destruct (read_doi_loop_spec toks ∅ [m]) as (consumed & Hsplit & _ & _).
    fold (left_over m toks) in Hsplit.
    assert (island_read all ("doi"%string,
              Common.mkIdentifier "doi" (strip_punctuation_at_end (accumulated m toks))))
      as Hitem by (exists before, m, toks; done).
    destruct (left_over m toks) as [|x rest] eqn:Hleft.
    + cbn [fst]. by constructor.
    + specialize (IH (before ++ (doi_start, m) :: consumed ++ [x]) rest).
      destruct (extract_island_loop fuel rest) as [out e]. cbn [fst] in *.
      constructor; [done|]. apply IH. rewrite Hall, Hsplit.
      rewrite <- !app_assoc. cbn [app]. by rewrite <- !app_assoc.
  - apply (IH (before ++ [(name, m)])). by rewrite <- app_assoc.
Qed.

Lemma extract_island_loop_exception fuel : ∀ toks,
  ((extract_island_loop fuel toks).2 = None
   ∨ (extract_island_loop fuel toks).2 = Some StopIteration)
  ∧ ((extract_island_loop fuel toks).2 = Some StopIteration →
     (extract_island_loop fuel toks).1 ≠ []).
Proof.
  induction fuel as [|fuel IH]; intros toks; cbn [extract_island_loop]; [by split; [left|]|].
  destruct toks as [|[name m] toks]; [by split; [left|]|].
  destruct (decide (name = doi_start)) as [->|Hne]; [|apply IH].
  rewrite read_doi_eq. destruct (left_over m toks) as [|x rest].
  - cbn [fst snd]. split; [by right|done].
  - specialize (IH rest). destruct (extract_island_loop fuel rest) as [out e].
    cbn [fst snd] in *. split; [apply IH|done].
Qed.

Lemma left_over_length m toks : length (left_over m toks) ≤ length toks.
Proof.
  destruct (read_doi_loop_spec toks ∅ [m]) as (consumed & Hsplit & _ & _).
  fold (left_over m toks) in Hsplit. rewrite Hsplit at 2. rewrite length_app. lia.
Qed.

(** One round per token is enough: more fuel changes nothing. *)
Lemma extract_island_loop_fuel fuel1 : ∀ fuel2 toks,
  length toks ≤ fuel1 → length toks ≤ fuel2 →
  extract_island_loop fuel1 toks = extract_island_loop fuel2 toks.
Proof.
  induction fuel1 as [|fuel1 IH]; intros fuel2 toks H1 H2.
  - destruct toks; [|simpl in H1; lia]. by destruct fuel2.
  - destruct toks as [|[name m] toks]; [by destruct fuel2|].
    destruct fuel2 as [|fuel2]; [simpl in H2; lia|]. cbn [extract_island_loop].
    simpl in H1, H2.
    destruct (decide (name = doi_start)) as [->|Hne]; [|apply IH; lia].
    rewrite read_doi_eq. pose proof (left_over_length m toks) as Hlen.
    destruct (left_over m toks) as [|x rest]; [done|]. simpl in Hlen.
    rewrite (IH fuel2 rest) by lia. done.
Qed.

Lemma extract_island_loop_nil fuel : ∀ toks,
  length toks ≤ fuel →
  (extract_island_loop fuel toks).1 = [] ↔ Forall (fun tok : token => tok.1 ≠ doi_start) toks.
Proof.
  induction fuel as [|fuel IH]; intros toks Hfuel.
  - destruct toks; [|simpl in Hfuel; lia]. done.
  - destruct toks as [|[name m] toks]; [done|]. cbn [extract_island_loop].
    simpl in Hfuel. rewrite Forall_cons. cbn [fst].
    destruct (decide (name = doi_start)) as [->|Hne].
    + rewrite read_doi_eq. destruct (left_over m toks) as [|x rest].
      * cbn [fst]. split; [done|]. by intros [? _].
      * destruct (extract_island_loop fuel rest) as [out e]. cbn [fst].
        split; [done|]. by intros [? _].
    + rewrite IH by lia. tauto.
Qed.

End Identifier.

(** X5 (no terminator character in an id).  For every text, no id that
    [extract_search] or [extract_island] yields holds a character at which
    identifiers end: ASCII white space, a line end, [|], [?] or [#]. *)
Theorem identifiers_hold_no_terminator_char `{UnicodeTables} (text : list N) :
  (∀ r ch, r ∈ (extract_search text).1 → ch ∈ Common.id (Common.value r) →
           is_terminator_char ch = false)
  ∧ (∀ item ch, item ∈ (extract_island text).1 → ch ∈ Common.id item.2 →
                is_terminator_char ch = false).
Proof.
  split.
  - intros r ch Hr Hch. pose proof (extract_search_captured text) as Hall.
    rewrite Forall_forall in Hall.
    destruct (Hall _ Hr) as (m & match_ & tokens & _ & _ & _ & Htok & Hval & _).
    rewrite Hval in Hch. cbn [Common.id] in Hch.
    eapply id_no_terminator_char; [|exact Hch].
    rewrite <- Htok. eapply Lexes_lexer_token, tokenize_search_Lexes.
  - intros item ch Hitem Hch.
    pose proof (extract_island_loop_read (tokenize_finditer text)
                  (length (tokenize_finditer text)) [] (tokenize_finditer text) eq_refl)
      as Hall.
    rewrite Forall_forall in Hall.
    destruct (Hall _ Hitem) as (before & match_ & tokens & Hsplit & ->).
    cbn [snd Common.id] in Hch.
    eapply id_no_terminator_char; [|exact Hch].
    pose proof (Lexes_lexer_token _ _ (tokenize_finditer_Lexes text)) as Hlex.
    rewrite Hsplit in Hlex. by apply Forall_app in Hlex as [_ ?].
Qed.

Lemma identifiers_hold_no_terminator_char_witness :
  Common.mkCaptureResult (Common.mkIdentifier "doi" (text_of "10.1000/a.b"))
    (Common.mkSpan 1 12)
    ∈ (@extract_search ascii_tables (text_of " 10.1000/a.b?c=d")).1
  ∧ 98%N ∈ text_of "10.1000/a.b"
  ∧ is_terminator_char 98 = false.
Proof.
  assert (Common.mkCaptureResult (Common.mkIdentifier "doi" (text_of "10.1000/a.b"))
            (Common.mkSpan 1 12)
          ∈ (@extract_search ascii_tables (text_of " 10.1000/a.b?c=d")).1) as Hin
    by (vm_compute; left).
  assert (98%N ∈ text_of "10.1000/a.b") as Hch
    by (vm_compute; repeat first [left | right]).
  split; [exact Hin|]. split; [exact Hch|].
  exact (proj1 (@identifiers_hold_no_terminator_char ascii_tables
                  (text_of " 10.1000/a.b?c=d")) _ _ Hin Hch).
Defined.

(** X7 ([extract_island]).  For every text, [extract_island] never fails
    the assertion of [read_doi]: it ends normally, or with the
    [StopIteration] that [next(tokens)] raises when the identifier just
    yielded ran to the last token.  It yields nothing exactly when the text
    has no [doi_start] token; every item it yields is tagged [doi], and its
    id is not empty and starts with the text of a [doi_start] token of the
    text.  The rounds of the model are enough: more rounds give the same
    result. *)
Theorem extract_island_yields `{UnicodeTables} (text : list N) :
  ((extract_island text).2 = None ∨ (extract_island text).2 = Some StopIteration)
  ∧ ((extract_island text).2 = Some StopIteration → (extract_island text).1 ≠ [])
  ∧ ((extract_island text).1 = []
     ↔ Forall (fun tok : token => tok.1 ≠ doi_start) (tokenize_finditer text))
  ∧ (∀ item, item ∈ (extract_island text).1 →
       item.1 = "doi"%string
       ∧ Common.kind item.2 = "doi"%string
       ∧ 0 < length (Common.id item.2)
       ∧ ∃ before match_ tokens more,
           tokenize_finditer text = before ++ (doi_start, match_) :: tokens
           ∧ Common.id item.2 = match_ ++ more)
  ∧ (∀ fuel, length (tokenize_finditer text) ≤ fuel →
       extract_island_loop fuel (tokenize_finditer text) = extract_island text).
Proof.
  unfold extract_island.
  destruct (extract_island_loop_exception (length (tokenize_finditer text))
              (tokenize_finditer text)) as [He Hne].
  split; [exact He|]. split; [exact Hne|]. split; [by apply extract_island_loop_nil|].
  split.
  - intros item Hitem.
    pose proof (extract_island_loop_read (tokenize_finditer text)
                  (length (tokenize_finditer text)) [] (tokenize_finditer text) eq_refl)
      as Hall.
    rewrite Forall_forall in Hall.
    destruct (Hall _ Hitem) as (before & match_ & tokens & Hsplit & ->).
    cbn [fst snd Common.kind Common.id].
    pose proof (tokenize_finditer_lexed text) as Hlex. rewrite Hsplit in Hlex.
    apply Forall_app in Hlex as [_ Hlex].
    apply Forall_cons in Hlex as [[rest Hlang]%lexed_doi_start _].
    destruct (id_nonempty _ _ tokens Hlang) as [more Hid].
    split; [done|]. split; [done|]. split.
    + rewrite Hid, length_app. apply lang_min_len in Hlang.
      change (min_len DOI_START_pattern) with 8 in Hlang. lia.
    + exists before, match_, tokens, more. done.
  - intros fuel Hfuel. by apply extract_island_loop_fuel.
Qed.

End IdentifierFacts.

(** ** The brackets of an identifier *)

Module BalanceFacts.
Import Regex RegexFacts Doi DoiMore LexerFacts ReadDoiFacts ExtractFacts CaptureFacts
  IdentifierFacts.

Section Balance.
Context `{UnicodeTables}.

Lemma count_name_cons name tok tokens :
  count_name name (tok :: tokens)
  = (if decide (tok.1 = name) then 1 else 0) + count_name name tokens.
Proof.
  unfold count_name. rewrite filter_cons.
  by destruct (decide (tok.1 = name)).
Qed.

Lemma count_char_cons c x s :
  count_char c (x :: s) = (if decide (x = c) then 1 else 0) + count_char c s.
Proof.
  unfold count_char. rewrite filter_cons. by destruct (decide (x = c)).
Qed.

Lemma count_char_app c s1 s2 :
  count_char c (s1 ++ s2) = count_char c s1 + count_char c s2.
Proof. unfold count_char. by rewrite filter_app, length_app. Qed.

Lemma count_char_absent c s : c ∉ s → count_char c s = 0.
Proof.
  induction s as [|x s IH]; [done|]. intros Hin. rewrite count_char_cons.
  rewrite not_elem_of_cons in Hin. destruct Hin as [Hne Hin].
  rewrite IH by done. destruct (decide (x = c)); [congruence|done].
Qed.

Lemma balanced_from_nil opener closer d :
  (0 ≤ d)%Z → balanced_from opener closer d [].
Proof. intros Hd j. rewrite take_nil. unfold count_name. simpl. lia. Qed.

(** One more token in front: the depth before it is what the depth behind
    it was, less one for an opener, plus one for a closer. *)
Lemma balanced_from_cons opener closer d tok consumed :
  (0 ≤ d)%Z →
  balanced_from opener closer
    (d + (if decide (tok.1 = opener) then 1 else 0)
       - (if decide (tok.1 = closer) then 1 else 0)) consumed →
  balanced_from opener closer d (tok :: consumed).
Proof.
  intros Hd Hbal [|j].
  - unfold count_name. simpl. lia.
  - cbn [take]. rewrite !count_name_cons. specialize (Hbal j).
    destruct (decide (tok.1 = opener)), (decide (tok.1 = closer)); lia.
Qed.

Lemma balanced_from_inv opener closer d tok consumed :
  balanced_from opener closer d (tok :: consumed) →
  (0 ≤ d)%Z
  ∧ balanced_from opener closer
      (d + (if decide (tok.1 = opener) then 1 else 0)
         - (if decide (tok.1 = closer) then 1 else 0)) consumed.
Proof.
  intros Hbal. split.
  - specialize (Hbal 0). unfold count_name in Hbal. simpl in Hbal. lia.
  - intros j. specialize (Hbal (S j)). cbn [take] in Hbal.
    rewrite !count_name_cons in Hbal.
    destruct (decide (tok.1 = opener)), (decide (tok.1 = closer)); lia.
Qed.

(** The loop of [read_doi] consumes a closer only against an opener. *)
Lemma read_doi_loop_balanced tokens : ∀ depth doi_buffer,
  (0 ≤ depth_get depth "bracket")%Z → (0 ≤ depth_get depth "curly")%Z →
  ∃ consumed,
    tokens = consumed ++ (read_doi_loop depth doi_buffer tokens).2
    ∧ (read_doi_loop depth doi_buffer tokens).1.2 = doi_buffer ++ map snd consumed
    ∧ Forall (fun tok : token => is_terminator tok.1 = false) consumed
    ∧ balanced_from open_bracket close_bracket (depth_get depth "bracket") consumed
    ∧ balanced_from open_curly close_curly (depth_get depth "curly") consumed.
Proof.
  induction tokens as [|[name m] tokens IH]; intros depth doi_buffer Hb Hc.
  - exists []. simpl. rewrite app_nil_r. by repeat split; try apply balanced_from_nil.
  - assert (∃ consumed : list token,
      (name, m) :: tokens = consumed ++ (name, m) :: tokens
      ∧ doi_buffer = doi_buffer ++ map snd consumed
      ∧ Forall (fun tok : token => is_terminator tok.1 = false) consumed
      ∧ balanced_from open_bracket close_bracket (depth_get depth "bracket") consumed
      ∧ balanced_from open_curly close_curly (depth_get depth "curly") consumed) as Hstop.
    { exists []. simpl. rewrite app_nil_r. by repeat split; try apply balanced_from_nil. }
    destruct (is_terminator name) eqn:Ht; [cbn [read_doi_loop]; rewrite Ht; exact Hstop|].
    assert (∀ depth',
      (depth_get depth' "bracket"
       = depth_get depth "bracket" + (if decide (name = open_bracket) then 1 else 0)
         - (if decide (name = close_bracket) then 1 else 0))%Z →
      (depth_get depth' "curly"
       = depth_get depth "curly" + (if decide (name = open_curly) then 1 else 0)
         - (if decide (name = close_curly) then 1 else 0))%Z →
      (0 ≤ depth_get depth' "bracket")%Z → (0 ≤ depth_get depth' "curly")%Z →
      ∃ consumed,
        (name, m) :: tokens
          = consumed ++ (read_doi_loop depth' (doi_buffer ++ [m]) tokens).2
        ∧ (read_doi_loop depth' (doi_buffer ++ [m]) tokens).1.2
          = doi_buffer ++ map snd consumed
        ∧ Forall (fun tok : token => is_terminator tok.1 = false) consumed
        ∧ balanced_from open_bracket close_bracket (depth_get depth "bracket") consumed
        ∧ balanced_from open_curly close_curly (depth_get depth "curly") consumed) as Hgo.
    { intros depth' Hb' Hc' Hb0 Hc0.
      destruct (IH depth' (doi_buffer ++ [m]) Hb0 Hc0)
        as (consumed & Htok & Hbuf & Hnt & Hbb & Hbc).
      exists ((name, m) :: consumed). split; [simpl; by f_equal|].
      split; [by rewrite Hbuf, <- app_assoc|]. split; [by constructor|].
      split; (apply balanced_from_cons; [done|]); cbn [fst]; by rewrite <- ?Hb', <- ?Hc'. }
    cbn [read_doi_loop]. rewrite Ht.
    destruct name; try discriminate Ht;
      try (apply Hgo; repeat (destruct (decide _); try done); lia).
    + apply Hgo; rewrite ?depth_get_add; repeat (destruct (decide _); try done); lia.
    + destruct (0 <? depth_get depth "bracket")%Z eqn:Hlt; [|exact Hstop].
      apply Z.ltb_lt in Hlt.
      apply Hgo; rewrite ?depth_get_add; repeat (destruct (decide _); try done); lia.
    + apply Hgo; rewrite ?depth_get_add; repeat (destruct (decide _); try done); lia.
    + destruct (0 <? depth_get depth "curly")%Z eqn:Hlt; [|exact Hstop].
      apply Z.ltb_lt in Hlt.
      apply Hgo; rewrite ?depth_get_add; repeat (destruct (decide _); try done); lia.
Qed.

(** *** From tokens to characters *)

Lemma lexicon_open_bracket r : (r, open_bracket) ∈ LEXICON → r = lit "[".
Proof.
  unfold LEXICON. intros Hin.
  repeat (apply elem_of_cons in Hin as [Hin|Hin]; [by simplify_eq|]).
  by apply elem_of_nil in Hin.
Qed.

Lemma lexicon_close_bracket r : (r, close_bracket) ∈ LEXICON → r = lit "]".
Proof.
  unfold LEXICON. intros Hin.
  repeat (apply elem_of_cons in Hin as [Hin|Hin]; [by simplify_eq|]).
  by apply elem_of_nil in Hin.
Qed.

Lemma lexicon_open_curly r : (r, open_curly) ∈ LEXICON → r = lit "{".
Proof.
  unfold LEXICON. intros Hin.
  repeat (apply elem_of_cons in Hin as [Hin|Hin]; [by simplify_eq|]).
  by apply elem_of_nil in Hin.
Qed.

Lemma lexicon_close_curly r : (r, close_curly) ∈ LEXICON → r = lit "}".
Proof.
  unfold LEXICON. intros Hin.
  repeat (apply elem_of_cons in Hin as [Hin|Hin]; [by simplify_eq|]).
  by apply elem_of_nil in Hin.
Qed.

Lemma lexer_token_absent tok ch :
  lexer_token tok → is_terminator tok.1 = false →
  ch ∈ [91; 93; 123; 125]%N →
  tok.1 ≠ open_bracket → tok.1 ≠ close_bracket →
  tok.1 ≠ open_curly → tok.1 ≠ close_curly →
  ch ∉ tok.2.
Proof.
  intros Htok Hnt Hch H1 H2 H3 H4. destruct tok as [name w]. cbn [fst snd] in *.
  destruct (decide (name = etc)) as [->|Hne].
  - destruct Htok as (c & s & n & Hm & Hw). cbn [fst snd] in *.
    apply lexicon_etc in Hm as (-> & Hob & Hcb & Hoc & Hcc & _).
    subst w. intros ->%list_elem_of_singleton.
    repeat (apply elem_of_cons in Hch as [->|Hch]; [done|]).
    by apply elem_of_nil in Hch.
  - refine (lexer_token_excludes (name, w) ch Htok _). cbn [fst].
    repeat (apply elem_of_cons in Hch as [->|Hch];
            [destruct name; try discriminate Hnt; try done; vm_compute; reflexivity|]).
    by apply elem_of_nil in Hch.
Qed.

Lemma lexer_token_single tok a :
  lexer_token tok → (∀ r, (r, tok.1) ∈ LEXICON → r = lit a) → tok.2 = [N_of_ascii a].
Proof.
  intros (r' & rest & Hin & Hlang)%lexer_token_lexed Hr.
  rewrite (Hr _ Hin) in Hlang. by apply lang_lit in Hlang.
Qed.

Lemma lexer_token_shaped_bracket tok :
  lexer_token tok → is_terminator tok.1 = false →
  shaped open_bracket close_bracket 91 93 tok.
Proof.
  intros Htok Hnt. split; [|split].
  - intros Hn. apply (lexer_token_single tok "["); [done|].
    rewrite Hn. intros r. apply lexicon_open_bracket.
  - intros Hn. apply (lexer_token_single tok "]"); [done|].
    rewrite Hn. intros r. apply lexicon_close_bracket.
  - intros H1 H2.
    destruct (decide (tok.1 = open_curly)) as [Hn|H3].
    { rewrite (lexer_token_single tok "{"); [|done|].
      - split; by intros ?%list_elem_of_singleton.
      - rewrite Hn. intros r. apply lexicon_open_curly. }
    destruct (decide (tok.1 = close_curly)) as [Hn|H4].
    { rewrite (lexer_token_single tok "}"); [|done|].
      - split; by intros ?%list_elem_of_singleton.
      - rewrite Hn. intros r. apply lexicon_close_curly. }
    split; apply lexer_token_absent; try done; rewrite !elem_of_cons; tauto.
Qed.

Lemma lexer_token_shaped_curly tok :
  lexer_token tok → is_terminator tok.1 = false →
  shaped open_curly close_curly 123 125 tok.
Proof.
  intros Htok Hnt. split; [|split].
  - intros Hn. apply (lexer_token_single tok "{"); [done|].
    rewrite Hn. intros r. apply lexicon_open_curly.
  - intros Hn. apply (lexer_token_single tok "}"); [done|].
    rewrite Hn. intros r. apply lexicon_close_curly.
  - intros H1 H2.
    destruct (decide (tok.1 = open_bracket)) as [Hn|H3].
    { rewrite (lexer_token_single tok "["); [|done|].
      - split; by intros ?%list_elem_of_singleton.
      - rewrite Hn. intros r. apply lexicon_open_bracket. }
    destruct (decide (tok.1 = close_bracket)) as [Hn|H4].
    { rewrite (lexer_token_single tok "]"); [|done|].
      - split; by intros ?%list_elem_of_singleton.
      - rewrite Hn. intros r. apply lexicon_close_bracket. }
    split; apply lexer_token_absent; try done; rewrite !elem_of_cons; tauto.
Qed.

Lemma count_char_take_absent c k s : c ∉ s → count_char c (take k s) = 0.
Proof.
  intros Hc. apply count_char_absent. intros Hin. apply Hc.
  by apply subseteq_take in Hin.
Qed.

Lemma chars_balanced opener closer oc cc consumed :
  opener ≠ closer → oc ≠ cc →
  ∀ d k,
    Forall (shaped opener closer oc cc) consumed →
    balanced_from opener closer d consumed →
    (Z.of_nat (count_char cc (take k (concat (map snd consumed))))
     ≤ d + Z.of_nat (count_char oc (take k (concat (map snd consumed)))))%Z.
Proof.
  intros Hoc Hch. induction consumed as [|tok consumed IH]; intros d k Hshape Hbal.
  - specialize (Hbal 0). cbn [map concat]. rewrite take_nil.
    unfold count_name, count_char in *. simpl in *. lia.
  - apply balanced_from_inv in Hbal as [Hd Hbal].
    apply Forall_cons in Hshape as [(Ho & Hc & Hother) Hshape].
    cbn [map concat]. rewrite take_app, !count_char_app.
    specialize (IH _ (k - length tok.2) Hshape Hbal).
    destruct (decide (tok.1 = opener)) as [Hn|Hn1].
    + destruct (decide (tok.1 = closer)) as [Hn'|_]; [congruence|].
      rewrite (Ho Hn) in *. destruct k as [|k].
      * rewrite !take_0 in *. unfold count_char in *. simpl in *. lia.
      * cbn [take]. rewrite take_nil, !count_char_cons.
        destruct (decide (oc = cc)); [done|]. destruct (decide (oc = oc)); [|done].
        change (count_char cc []) with 0. change (count_char oc []) with 0. lia.
    + destruct (decide (tok.1 = closer)) as [Hn|Hn2].
      * rewrite (Hc Hn) in *. destruct k as [|k].
        -- rewrite !take_0 in *. unfold count_char in *. simpl in *. lia.
        -- cbn [take]. rewrite take_nil, !count_char_cons.
           destruct (decide (cc = oc)); [congruence|]. destruct (decide (cc = cc)); [|done].
           change (count_char cc []) with 0. change (count_char oc []) with 0. lia.
      * destruct (Hother Hn1 Hn2) as [Ho' Hc'].
        rewrite !count_char_take_absent by done. lia.
Qed.

(** Of a text that holds no more closers than openers at any point, every
    prefix is such a text. *)
Lemma never_closes_unopened_prefix oc cc s run :
  never_closes_unopened oc cc (s ++ run) → never_closes_unopened oc cc s.
Proof.
  intros Hall k. specialize (Hall (Nat.min k (length s))).
  rewrite take_app_le in Hall by lia.
  destruct (Nat.le_ge_cases k (length s)).
  - by rewrite Nat.min_l in Hall.
  - rewrite Nat.min_r in Hall by done. rewrite !(take_ge s) in Hall by lia.
    by rewrite !(take_ge s k) by lia.
Qed.

Lemma id_balanced match_ tokens :
  Forall lexer_token ((doi_start, match_) :: tokens) →
  never_closes_unopened 91 93 (strip_punctuation_at_end (accumulated match_ tokens))
  ∧ never_closes_unopened 123 125 (strip_punctuation_at_end (accumulated match_ tokens)).
Proof.
  intros Hall.
  destruct (strip_trailing_run (accumulated match_ tokens)) as (run & Hrun & _).
  { intros Hlast%last_Some_elem_of. revert Hlast. apply accumulated_no_newline.
    eapply Forall_impl; [exact Hall|]. apply lexer_token_lexed. }
  assert (never_closes_unopened 91 93 (accumulated match_ tokens)
          ∧ never_closes_unopened 123 125 (accumulated match_ tokens)) as [Hb Hc].
  { unfold accumulated.
    destruct (read_doi_loop_balanced tokens ∅ [match_])
      as (consumed & Hsplit & -> & Hnt & Hbb & Hbc); [by rewrite depth_get_empty..|].
    rewrite !depth_get_empty in *.
    change ([match_] ++ map snd consumed)
      with (map snd ((doi_start, match_) :: consumed)).
    assert (Forall lexer_token ((doi_start, match_) :: consumed)) as Hlex.
    { apply Forall_cons in Hall as [Hfirst Hall]. rewrite Hsplit in Hall.
      apply Forall_app in Hall as [Hcons _]. by constructor. }
    assert (Forall (fun tok : token => is_terminator tok.1 = false)
              ((doi_start, match_) :: consumed)) as Hnt' by (by constructor).
    split; intros k.
    - pose proof (chars_balanced open_bracket close_bracket 91 93
                    ((doi_start, match_) :: consumed) ltac:(done) ltac:(done) 0%Z k) as Hk.
      apply Nat2Z.inj_le. rewrite <- (Z.add_0_l (Z.of_nat (count_char 91 _))).
      apply Hk.
      + rewrite Forall_forall in Hlex, Hnt' |- *. intros tok Hin.
        apply lexer_token_shaped_bracket; auto.
      + by apply balanced_from_cons.
    - pose proof (chars_balanced open_curly close_curly 123 125
                    ((doi_start, match_) :: consumed) ltac:(done) ltac:(done) 0%Z k) as Hk.
      apply Nat2Z.inj_le. rewrite <- (Z.add_0_l (Z.of_nat (count_char 123 _))).
      apply Hk.
      + rewrite Forall_forall in Hlex, Hnt' |- *. intros tok Hin.
        apply lexer_token_shaped_curly; auto.
      + by apply balanced_from_cons. }
  rewrite Hrun in Hb, Hc. split; by eapply never_closes_unopened_prefix.
Qed.

End Balance.

(** X6 (brackets and braces of an id).  For every text, in every id that
    [extract_search] or [extract_island] yields, no prefix holds more
    closing brackets than opening brackets, nor more closing braces than
    opening braces: a closer is part of an id only against an opener that
    the id holds before it. *)
Theorem identifiers_never_close_unopened `{UnicodeTables} (text : list N) :
  (∀ r, r ∈ (extract_search text).1 →
        never_closes_unopened 91 93 (Common.id (Common.value r))
        ∧ never_closes_unopened 123 125 (Common.id (Common.value r)))
  ∧ (∀ item, item ∈ (extract_island text).1 →
        never_closes_unopened 91 93 (Common.id item.2)
        ∧ never_closes_unopened 123 125 (Common.id item.2)).
Proof.
  split.
  - intros r Hr. pose proof (extract_search_captured text) as Hall.
    rewrite Forall_forall in Hall.
    destruct (Hall _ Hr) as (m & match_ & tokens & _ & _ & _ & Htok & Hval & _).
    rewrite Hval. cbn [Common.id]. apply id_balanced.
    rewrite <- Htok. eapply Lexes_lexer_token, tokenize_search_Lexes.
  - intros item Hitem.
    pose proof (extract_island_loop_read (tokenize_finditer text)
                  (length (tokenize_finditer text)) [] (tokenize_finditer text) eq_refl)
      as Hall.
    rewrite Forall_forall in Hall.
    destruct (Hall _ Hitem) as (before & match_ & tokens & Hsplit & ->).
    cbn [snd Common.id]. apply id_balanced.
    pose proof (Lexes_lexer_token _ _ (tokenize_finditer_Lexes text)) as Hlex.
    rewrite Hsplit in Hlex. by apply Forall_app in Hlex as [_ ?].
Qed.

Lemma identifiers_never_close_unopened_witness :
  Common.mkCaptureResult (Common.mkIdentifier "doi" (text_of "10.1000/a[b]c"))
    (Common.mkSpan 1 14)
    ∈ (@extract_search ascii_tables (text_of "[10.1000/a[b]c]")).1
  ∧ never_closes_unopened 91 93 (text_of "10.1000/a[b]c").
Proof.
  assert (Common.mkCaptureResult (Common.mkIdentifier "doi" (text_of "10.1000/a[b]c"))
            (Common.mkSpan 1 14)
          ∈ (@extract_search ascii_tables (text_of "[10.1000/a[b]c]")).1) as Hin
    by (vm_compute; left).
  split; [exact Hin|].
  exact (proj1 (proj1 (@identifiers_never_close_unopened ascii_tables
                         (text_of "[10.1000/a[b]c]")) _ Hin)).
Defined.

End BalanceFacts.

(** ** What a run counts *)

Module AccountingFacts.
Import Functools FunctoolsFacts Bibliography ClassifierFacts PipelineFacts BibliographyMore.



Lemma accounts_refl st : accounts st st 0 0 (λ _, 0%Z) (λ _, 0%Z).
Proof. unfold accounts. split_and!; try done; intros; lia. Qed.



Lemma accounts_stats st1 st1' st2 st2' r p g l :
  st1' = st1 → st2' = st2 → accounts st1 st2 r p g l → accounts st1' st2' r p g l.
Proof. by intros -> ->. Qed.





Lemma accounts_incr_pages st :
  accounts st (incr_pages_analyzed st) 0 1 (λ _, 0%Z) (λ _, 0%Z).
Proof. unfold accounts. cbn. split_and!; try done; intros; lia. Qed.

Section Accounting.
Context `{Collaborators}.
Variable language : string.
Variable only_last_revision : bool.











End Accounting.


End AccountingFacts.

(** ** What a run renders *)

Module RenderingFacts.
Import Functools FunctoolsFacts Bibliography ClassifierFacts PipelineFacts.
Import BibliographyMore AccountingFacts.

Section Rendering.
Context `{Collaborators}.
Variable language : string.
Variable only_last_revision : bool.






(** *** The revisions that are processed *)



(** *** A language that has synonyms *)

Section Known.
Variable synonyms : list string.
Hypothesis Hknown : bibliography !! language = Some synonyms.





End Known.

(** *** A language that has no synonyms *)

Section Unknown.
Hypothesis Hunknown : bibliography !! language = None.









End Unknown.
End Rendering.





End RenderingFacts.

(** ** Any consumer *)

Module ConsumerFacts.
Import Functools FunctoolsFacts Bibliography ClassifierFacts PipelineFacts.
Import BibliographyMore AccountingFacts RenderingFacts.



Lemma accounts_grown st st' r p g l r' p' :
  accounts st st' r p g l →
  (0 ≤ r ≤ r')%Z → (0 ≤ p ≤ p')%Z → (∀ n, 0 ≤ g n)%Z → (∀ n, 0 ≤ l n)%Z →
  grown st st' r' p'.
Proof.
  unfold accounts, grown. intros (? & ? & ? & ? & Hg & Hl) ? ? Hg0 Hl0.
  split_and!; try done; try lia.
  - intros n. specialize (Hg n). specialize (Hg0 n). lia.
  - intros n. specialize (Hl n). specialize (Hl0 n). lia.
Qed.

Section Consumer.
Context `{Collaborators}.



Lemma pages_next_stats g w :
  cache (pages_next g w).2 = cache w
  ∧ section_names (stats (pages_next g w).2) = section_names (stats w)
  ∧ revisions_analyzed (performance (stats (pages_next g w).2))
    = revisions_analyzed (performance (stats w))
  ∧ grown (stats w) (stats (pages_next g w).2) 0 1.
Proof.
  unfold pages_next. destruct (pages_status g); rewrite ?pages_resume_world.
  - split_and!; try done.
    eapply accounts_grown; [apply accounts_refl|lia..|done|done].
  - split_and!; try done. cbn [update stats].
    eapply accounts_grown; [apply accounts_incr_pages|lia..|done|done].
  - split_and!; try done.
    eapply accounts_grown; [apply accounts_refl|lia..|done|done].
Qed.



Lemma run_actions_cons a actions sys :
  run_actions (a :: actions) sys = run_actions actions (step a sys).
Proof. done. Qed.



End Consumer.




(** X13 (the pages alone).  A consumer that only advances the generator of
    the pages, and never the revisions of a page, classifies no section:
    the cache, the counters of the section names and [revisions_analyzed]
    stay as they were. *)
Theorem pages_alone_count_nothing `{Collaborators} (sys : System) (actions : list action) :
  Forall (λ a, a = NextPage) actions →
  cache (world (run_actions actions sys)) = cache (world sys)
  ∧ section_names (stats (world (run_actions actions sys)))
    = section_names (stats (world sys))
  ∧ revisions_analyzed (performance (stats (world (run_actions actions sys))))
    = revisions_analyzed (performance (stats (world sys))).
Proof.
  revert sys. induction actions as [|a actions IH]; intros sys Hall; [done|].
  apply List.Forall_cons_iff in Hall as [-> Hall].
  rewrite run_actions_cons. destruct (IH (step NextPage sys) Hall) as (-> & -> & ->).
  cbn [step].
  destruct (pages_next_stats (pages_generator sys) (world sys)) as (Hca & Hn & Hr & _).
  by destruct (pages_next _ _) as [[r g1] w1].
Qed.

Lemma pages_alone_count_nothing_witness :
  Forall (λ a, a = NextPage) [NextPage; NextPage]
  ∧ section_names (stats (world (@run_actions example_collaborators [NextPage; NextPage]
                                   (mkSystem initial_world
                                      (@extract_pages [example_page] "en" false) []))))
    = section_names (stats initial_world).
Proof.
  assert (Forall (λ a, a = NextPage) [NextPage; NextPage]) as Hall
    by (repeat constructor).
  split; [exact Hall|].
  exact (proj1 (proj2 (@pages_alone_count_nothing example_collaborators
                         (mkSystem initial_world
                            (@extract_pages [example_page] "en" false) [])
                         _ Hall))).
Defined.

End ConsumerFacts.

(** ** The cutoff of the classifier *)

Module CutoffFacts.
Import Bibliography ClassifierFacts.

(** X14 (a stricter cutoff accepts less).  A section name that
    [is_bibliography] accepts with a cutoff is accepted with every lower
    cutoff, and a name that it rejects with a cutoff is rejected with every
    higher one. *)
Theorem is_bibliography_cutoff_monotone `{Collaborators}
    (section_name language : string) (low high : Z) :
  (low ≤ high)%Z →
  (is_bibliography_body section_name language high = inr true →
   is_bibliography_body section_name language low = inr true)
  ∧ (is_bibliography_body section_name language low = inr false →
     is_bibliography_body section_name language high = inr false).
Proof.
  intros Hle. unfold is_bibliography_body.
  destruct (bibliography !! language) as [synonyms|]; [|done].
  pose proof (extractOne_Some section_name synonyms low) as Hlow.
  pose proof (extractOne_Some section_name synonyms high) as Hhigh.
  assert (is_Some (extractOne section_name synonyms high) →
          is_Some (extractOne section_name synonyms low)) as Hmono.
  { intros (synonym & Hin & Hscore)%Hhigh. apply Hlow. exists synonym.
    split; [done|lia]. }
  destruct (extractOne section_name synonyms high) as [mh|] eqn:Hh;
    destruct (extractOne section_name synonyms low) as [ml|] eqn:Hl; try done.
  destruct Hmono as [? [=]]. by eexists.
Qed.

Lemma is_bibliography_cutoff_monotone_witness :
  (50 ≤ 91)%Z
  ∧ @is_bibliography_body example_collaborators "References" "en" 91 = inr true
  ∧ @is_bibliography_body example_collaborators "References" "en" 50 = inr true.
Proof.
  assert (50 ≤ 91)%Z as Hle by lia.
  assert (@is_bibliography_body example_collaborators "References" "en" 91 = inr true)
    as Hhigh by (vm_compute; reflexivity).
  split; [exact Hle|]. split; [exact Hhigh|].
  exact (proj1 (@is_bibliography_cutoff_monotone example_collaborators
                  "References" "en" 50 91 Hle) Hhigh).
Defined.

End CutoffFacts.
